(** * Impulse-response deformer ([muda/deformers/ir.py])

    A shallow embedding of the impulse-response convolution deformer and the
    properties its specification states about it.

    Conventions of the embedding.
    - Python floats that carry times, durations, delays and samples are
      modelled as exact rationals ([Q]); rounding is not modelled, so
      arithmetic facts below are facts of exact arithmetic.
    - Python objects that are mutated or aliased (JAMS annotations) live in
      an explicit store; a variable holding such an object holds a location.
    - JAMS keeps the observations of an annotation sorted by time; lists of
      observations are meant in that order, and the statements that depend
      on it say so ([time_ordered]).
    - A call either returns or raises; the store is threaded through both
      outcomes so that the state left behind by a raise can be inspected. *)

From Stdlib Require Import ZArith QArith Qminmax Lqa Lia.
From stdpp Require Import base list strings.

Set Default Proof Using "Type".

(** ** Outcomes *)

(** The exceptions that occur in the program or in its specification. *)
Inductive exn : Set :=
  | UnboundLocalError
  | ValueError
  | IndexError
  | LoadError
  | ConfigurationError
  | EstimationError
  | BoundaryError
  | ParameterError.

Inductive outcome (A : Type) : Type :=
  | Returns (a : A)
  | Raises (e : exn).
Arguments Returns {A} a.
Arguments Raises {A} e.

(** Python's [a > b] on numbers. *)
Definition Qgtb (a b : Q) : bool := negb (Qle_bool a b).

(** ** The annotation container (JAMS) *)

Module Jams.

Record Observation (V C : Type) : Type := mkObs {
  time : Q;
  duration : Q;
  value : V;
  confidence : C
}.
Arguments mkObs {V C} _ _ _ _.
Arguments time {V C} _.
Arguments duration {V C} _.
Arguments value {V C} _.
Arguments confidence {V C} _.

(** An annotation: its total duration and its observations.  JAMS keeps the
    observations of an annotation sorted by time, so the list stored here
    is meant in time order ([time_ordered] below); [pop_data] hands the
    observations out in that order. *)
Record Annotation (V C : Type) : Type := mkAnn {
  ann_duration : Q;
  data : list (Observation V C)
}.
Arguments mkAnn {V C} _ _.
Arguments ann_duration {V C} _.
Arguments data {V C} _.

(** The order JAMS keeps: no observation starts before an earlier one. *)
Fixpoint time_ordered {V C : Type} (l : list (Observation V C)) : Prop :=
  match l with
  | [] => True
  | o :: rest =>
      (forall p, p ∈ rest -> (time o <= time p)%Q) /\ time_ordered rest
  end.

(** Insertion by time, as the sorted container of JAMS does it: the new
    observation goes after those that start no later than it. *)
Fixpoint add_by_time {V C : Type} (o : Observation V C)
    (l : list (Observation V C)) : list (Observation V C) :=
  match l with
  | [] => [o]
  | p :: rest =>
      if negb (Qle_bool (time p) (time o)) then o :: l
      else p :: add_by_time o rest
  end.

(** Annotation objects are allocated in a store and named by their index. *)
Abbreviation loc := nat (only parsing).
Abbreviation heap V C := (list (Annotation V C)) (only parsing).

Section Store.

Context {V C : Type}.
Implicit Types (h : heap V C) (l : loc) (a : Annotation V C).
Implicit Types (o : Observation V C).

Definition blank : Annotation V C := mkAnn 0 [].

Definition read h l : Annotation V C :=
  default blank (h !! l).

Definition write l a h : heap V C :=
  <[l := a]> h.

Definition alloc a h : loc * heap V C :=
  (length h, h ++ [a]).

(** [Annotation.append(time=, duration=, value=, confidence=)].  The new
    observation is put at the end.  JAMS inserts it by time; the two agree
    whenever no observation already there starts later than the new one
    ([add_by_time_at_end] below), which is how [deform_times] meets the
    caller's annotation when the observations are drained in time order
    ([add_by_time_run], [shifted_in_time_order]). *)
Definition append l o h : heap V C :=
  let a := read h l in
  write l (mkAnn (ann_duration a) (data a ++ [o])) h.

(** [Annotation.pop_data()]: hand out the observations and leave the
    annotation with a fresh, empty container. *)
Definition pop_data l h : list (Observation V C) * heap V C :=
  let a := read h l in
  (data a, write l (mkAnn (ann_duration a) []) h).

End Store.

End Jams.

(** ** The deformer *)

Module IR.
Import Jams.

(** A deformation state, [dict(filename=..., ir_groupdelay=...)].  The type
    of the delay is a parameter: the state generator stores whatever the
    estimator returned (possibly numpy's nan), the annotation shifter is
    modelled on finite delays. *)
Record State (F : Type) : Type := mkState {
  filename : string;
  ir_groupdelay : F
}.
Arguments mkState {F} _ _.
Arguments filename {F} _.
Arguments ir_groupdelay {F} _.

(** *** [IRConvolution.deform_times] *)

Section DeformTimes.

Context {V C : Type}.

(** [Annotation.slice(start, end, strict=False)] belongs to JAMS.  The
    variable [slice] is the annotation it builds when it returns: a new
    object, made from the one it is called on, which it leaves alone. *)
Variable slice : Annotation V C -> Q -> Q -> Annotation V C.

(** The call itself: JAMS refuses a range whose end is not after its start
    with [ParameterError], and otherwise returns the new annotation. *)
Definition Annotation_slice (a : Annotation V C) (start_time end_time : Q)
    : outcome (Annotation V C) :=
  if Qle_bool end_time start_time then Raises ParameterError
  else Returns (slice a start_time end_time).

(** The local variables of [deform_times] that change in the loop:
    [annotation] names an object in the store, [deformed_duration] is
    unbound ([None]) until its first assignment. *)
Record frame : Type := mkFrame {
  annotation : loc;
  deformed_duration : option Q
}.

(** One iteration of the [for] loop (lines 98-116): the [if]/[else], then
    the [append] that follows it on every path that gets there. *)
Definition deform_step (g : Q) (obs : Observation V C) (fr : frame)
    (h : heap V C) : outcome frame * heap V C :=
  let a := read h (annotation fr) in
  let branch : outcome (frame * heap V C) :=
    if Qgtb (time obs + g) (ann_duration a) then
      match Annotation_slice a 0 (ann_duration a) with
      | Raises e => Raises e
      | Returns copy =>
          let '(l, h') := alloc copy h in
          Returns (mkFrame l (deformed_duration fr), h')
      end
    else
      let dd :=
        if Qgtb (time obs + duration obs + g) (ann_duration a)
        then (ann_duration a - time obs - g)%Q
        else duration obs in
      Returns (mkFrame (annotation fr) (Some dd), h) in
  match branch with
  | Raises e => (Raises e, h)
  | Returns (fr1, h1) =>
      match deformed_duration fr1 with
      | None => (Raises UnboundLocalError, h1)
      | Some dd =>
          (Returns fr1,
           append (annotation fr1)
             (mkObs (time obs + g)%Q dd (value obs) (confidence obs)) h1)
      end
  end.

Fixpoint deform_loop (g : Q) (drained : list (Observation V C)) (fr : frame)
    (h : heap V C) : outcome frame * heap V C :=
  match drained with
  | [] => (Returns fr, h)
  | obs :: rest =>
      match deform_step g obs fr h with
      | (Returns fr', h') => deform_loop g rest fr' h'
      | (Raises e, h') => (Raises e, h')
      end
  end.

Definition deform_times (annotation : loc) (state : State Q) (h : heap V C)
    : outcome unit * heap V C :=
  let g := ir_groupdelay state in
  let '(drained, h0) := pop_data annotation h in
  match deform_loop g drained (mkFrame annotation None) h0 with
  | (Returns _, h') => (Returns tt, h')
  | (Raises e, h') => (Raises e, h')
  end.

End DeformTimes.

(** The observation that the [else] branch and the [append] after it
    build from [o] in an annotation of duration [D]. *)
Definition shifted {V C : Type} (g D : Q) (o : Observation V C)
    : Observation V C :=
  mkObs (time o + g)%Q
    (if Qgtb (time o + duration o + g) D
     then (D - time o - g)%Q else duration o)
    (value o) (confidence o).

(** The test of the [else] branch: the shifted onset is at most [D]. *)
Definition kept {V C : Type} (g D : Q) (o : Observation V C) : bool :=
  negb (Qgtb (time o + g) D).

(** The drained observations up to the first one whose shifted onset lies
    beyond [D]. *)
Fixpoint take_kept {V C : Type} (g D : Q) (l : list (Observation V C))
    : list (Observation V C) :=
  match l with
  | [] => []
  | o :: rest =>
      if Qgtb (time o + g) D then [] else o :: take_kept g D rest
  end.

(** Some annotation object at or beyond location [n] (one created after
    the store had [n] objects) holds [o] shifted by [g], with its
    payloads. *)
Definition appended_off {V C : Type} (n : loc) (g : Q) (o : Observation V C)
    (h : heap V C) : Prop :=
  exists l o', n <= l /\ o' ∈ data (read h l) /\ time o' = (time o + g)%Q
    /\ value o' = value o /\ confidence o' = confidence o.

(** Modelled from the spec: the annotation container's duration-clipping
    slice (section 6), which is JAMS code and not part of this repository.
    It keeps the observations that overlap [[start, end]], clips them to it
    and re-bases their times at [start]; the new annotation spans the
    clipped range.  It only serves to run the shifter on concrete inputs;
    the statements below hold for every slice. *)
Definition clip_slice {V C : Type} (a : Annotation V C) (s e : Q)
    : Annotation V C :=
  let lo := Qmax 0 s in
  let hi := Qmin (ann_duration a) e in
  let clip (o : Observation V C) :=
    let o_start := Qmax (time o) lo in
    let o_end := Qmin (time o + duration o) hi in
    mkObs (Qmax 0 (o_start - s)) (o_end - o_start)%Q (value o) (confidence o) in
  let overlaps (o : Observation V C) :=
    Qgtb hi (time o) && Qgtb (time o + duration o) lo in
  mkAnn (hi - lo)%Q (map clip (filter (fun o => overlaps o = true) (data a))).

(** *** [median_group_delay] *)

(** A numpy float result: a number, an infinity with its sign, or nan. *)
Inductive npfloat : Set :=
  | Fin (q : Q)
  | Inf (positive : bool)
  | NaN.

(** Python's builtin [max] over a sequence: the first greatest element;
    [ValueError] on an empty sequence. *)
Definition py_max (l : list Q) : outcome Q :=
  match l with
  | [] => Raises ValueError
  | x :: rest =>
      Returns (fold_left (fun m v => if Qgtb v m then v else m) rest x)
  end.

(** Indexing an array with a boolean mask, [arr[mask]]: the entries under a
    [True]; [IndexError] when the shapes differ. *)
Fixpoint select (arr : list Q) (mask : list bool) : list Q :=
  match arr, mask with
  | x :: arr', b :: mask' =>
      if b then x :: select arr' mask' else select arr' mask'
  | _, _ => []
  end.

Definition bool_index (arr : list Q) (mask : list bool) : outcome (list Q) :=
  if Nat.eqb (length arr) (length mask)
  then Returns (select arr mask)
  else Raises IndexError.

(** [np.median]: sort, then the middle entry or the mean of the two middle
    entries; nan for an empty array. *)
Fixpoint insert_sorted (x : Q) (l : list Q) : list Q :=
  match l with
  | [] => [x]
  | y :: l' => if Qle_bool x y then x :: l else y :: insert_sorted x l'
  end.

Definition sort (l : list Q) : list Q := foldr insert_sorted [] l.

Definition np_median (l : list Q) : npfloat :=
  match l with
  | [] => NaN
  | _ =>
      let s := sort l in
      let n := length s in
      if Nat.even n
      then Fin ((nth (n / 2 - 1) s 0 + nth (n / 2) s 0) / 2)%Q
      else Fin (nth (n / 2) s 0%Q)
  end.

(** numpy's [x / d] for a float [x] and an integer [d]: dividing by zero
    warns and gives an infinity, or nan for [0 / 0]; it does not raise. *)
Definition np_div (x : npfloat) (d : Z) : npfloat :=
  match x with
  | Fin q =>
      if (d =? 0)%Z
      then (if Qeq_bool q 0 then NaN else Inf (Qgtb q 0))
      else Fin (q / inject_Z d)
  | Inf positive =>
      if (d <? 0)%Z then Inf (negb positive) else Inf positive
  | NaN => NaN
  end.

Section Estimator.

(** The spectral numerics belong to scipy and numpy and work on complex
    floats; they are parameters.  [freqz_db y n_fft] is the curve of line
    51, [20 * log10(clip(abs(freqz(y, 1, n_fft)), 1e-8, 1e100))], and
    [group_delay y n_fft] the curve of line 56; both have one entry per
    frequency bin. *)
Variable freqz_db : list Q -> Z -> list Q.
Variable group_delay : list Q -> Z -> list Q.

Definition median_group_delay (y : list Q) (sr : Z) (n_fft : Z)
    (rolloff_value : Z) : outcome npfloat :=
  let rolloff_value :=
    if (rolloff_value >? 0)%Z then (- rolloff_value)%Z else rolloff_value in
  let power_ir := freqz_db y n_fft in
  match py_max power_ir with
  | Raises e => Raises e
  | Returns peak =>
      let threshold := (peak + inject_Z rolloff_value)%Q in
      let gd_ir := group_delay y n_fft in
      match bool_index gd_ir (map (fun p => Qgtb p threshold) power_ir) with
      | Raises e => Raises e
      | Returns passband => Returns (np_div (np_median passband) sr)
      end
  end.

End Estimator.

(** *** [IRConvolution] *)

(** [ir_files] is given as one path or as a list of paths. *)
Inductive ir_files_arg : Set :=
  | OnePath (s : string)
  | Paths (l : list string).

Record IRConvolution : Set := mkIRConvolution {
  ir_files : list string;
  n_fft : Z;
  rolloff_value : Z;
  dispatch : list (string * string)
}.

(** Modelled from the spec: [BaseTransformer.__init__] and
    [BaseTransformer._register] live in [muda/base.py], which is not part of
    the sources at hand.  Following sections 4.4 and 9, the base class
    starts with an empty dispatch table and registration records the
    annotation hook under its namespace pattern. *)
Definition BaseTransformer_init : list (string * string) := [].

Definition register (pattern hook : string) (table : list (string * string))
    : list (string * string) :=
  table ++ [(pattern, hook)].

(** [IRConvolution.__init__] (lines 64-90). *)
Definition IRConvolution_init (files : ir_files_arg) (n_fft : Z)
    (rolloff_value : Z) : outcome IRConvolution :=
  let ir_files :=
    match files with
    | OnePath s => [s]
    | Paths l => l
    end in
  Returns (mkIRConvolution ir_files n_fft rolloff_value
             (register ".*" "deform_times" BaseTransformer_init)).

(** The working audio of the pipeline, [mudabox._audio]. *)
Record AudioContext : Set := mkAudio {
  audio_y : list Q;
  audio_sr : Z
}.

(** Reading an audio file is the only input/output of the deformer. *)
Inductive event : Set :=
  | Load (fname : string) (sr : Z).

(** [librosa.util.fix_length(data, size)]: cut or pad with zeros to
    [size] entries. *)
Definition fix_length (data : list Q) (size : nat) : list Q :=
  if Nat.ltb size (length data) then take size data
  else data ++ replicate (size - length data) 0%Q.

Section Pipeline.

Variable freqz_db : list Q -> Z -> list Q.
Variable group_delay : list Q -> Z -> list Q.

(** [librosa.load(fname, sr=sr)]: the samples and their rate, or a failure
    of the loader. *)
Variable load : string -> Z -> outcome (list Q * Z).

(** [scipy.signal.fftconvolve(in1, in2, mode="same")]. *)
Variable fftconvolve_same : list Q -> list Q -> list Q.

(** [IRConvolution.states] (lines 118-128), run to exhaustion: the loads it
    performed, the states it yielded, and how the iteration ended. *)
Fixpoint states_from (files : list string) (sr n_fft rolloff_value : Z)
    : list event * list (State npfloat) * outcome unit :=
  match files with
  | [] => ([], [], Returns tt)
  | fname :: rest =>
      match load fname sr with
      | Raises e => ([Load fname sr], [], Raises e)
      | Returns (y_ir, sr_ir) =>
          match median_group_delay freqz_db group_delay y_ir sr_ir n_fft
                  rolloff_value with
          | Raises e => ([Load fname sr], [], Raises e)
          | Returns estimated_group_delay =>
              let '(io, yielded, out) :=
                states_from rest sr n_fft rolloff_value in
              (Load fname sr :: io,
               mkState fname estimated_group_delay :: yielded, out)
          end
      end
  end.

Definition states (self : IRConvolution) (jam : AudioContext)
    : list event * list (State npfloat) * outcome unit :=
  states_from (ir_files self) (audio_sr jam) (n_fft self) (rolloff_value self).

(** [IRConvolution.audio] (lines 130-145).  The padding of lines 137-141
    is a step of its own, so that the buffer between the two assignments
    can be named. *)
Definition audio_pad (y y_ir : list Q) : list Q :=
  let n := length y in
  if Nat.ltb n (length y_ir) then fix_length y (length y_ir) else y.

Definition audio {F : Type} (mudabox : AudioContext) (state : State F)
    : outcome AudioContext :=
  let fname := filename state in
  match load fname (audio_sr mudabox) with
  | Raises e => Raises e
  | Returns (y_ir, sr_ir) =>
      Returns (mkAudio (fftconvolve_same (audio_pad (audio_y mudabox) y_ir) y_ir)
                 (audio_sr mudabox))
  end.

End Pipeline.

End IR.

(** ** Stand-ins for the collaborators, for concrete runs *)

Module Examples.

(** The dB curve of an all-zero impulse response: [abs(h)] is clipped to
    [1e-8] in every bin, which is -160 dB. *)
Definition silent_db (y : list Q) (n_fft : Z) : list Q :=
  replicate (Z.to_nat n_fft) (-160)%Q.

Definition flat_gd (y : list Q) (n_fft : Z) : list Q :=
  replicate (Z.to_nat n_fft) 0%Q.

(** A five-bin response with its peak in the middle, and a group-delay
    curve read off the signal. *)
Definition peaked_db (y : list Q) (n_fft : Z) : list Q :=
  [-30; -3; 0; -10; -40]%Q.

Definition signal_gd (y : list Q) (n_fft : Z) : list Q := y.

(** A loader that knows one file. *)
Definition one_file (fname : string) (sr : Z) : outcome (list Q * Z) :=
  if String.eqb fname "ir.wav" then Returns ([1; 2; 3; 4]%Q, sr)
  else Raises LoadError.

(** Same-mode linear convolution by the defining sum: output sample [k] is
    sample [k + (m - 1) / 2] of the full convolution of [in1] with an [in2]
    of [m] samples. *)
Definition full_sample (in1 in2 : list Q) (i : nat) : Q :=
  fold_right Qplus 0%Q
    (map (fun j => if Nat.leb j i
                   then (nth (i - j) in1 0 * nth j in2 0)%Q else 0%Q)
       (seq 0 (length in2))).


End Examples.

(** ** What the specification says, in its own words *)

Module Spec.
Import Jams IR.

(** Section 4.4: an observation whose shifted onset lies beyond the
    annotation's duration is dropped; any other is re-appended with its
    duration cut at the track boundary. *)
Definition shift_observation {V C : Type} (g D : Q) (o : Observation V C)
    : list (Observation V C) :=
  let shiftedOnset := (time o + g)%Q in
  if Qgtb shiftedOnset D then []
  else [mkObs shiftedOnset (Qmin (duration o) (D - shiftedOnset))
          (value o) (confidence o)].

Definition shift_annotation {V C : Type} (g : Q) (a : Annotation V C)
    : Annotation V C :=
  mkAnn (ann_duration a)
    (concat (map (shift_observation g (ann_duration a)) (data a))).

(** Section 4.1, input: a positive [rolloffValue] is negated, so that it is
    never above zero. *)
Definition sign_normalised (rolloffValue : Z) : Z :=
  if (0 <? rolloffValue)%Z then (- rolloffValue)%Z else rolloffValue.

(** Section 4.1, steps 3 to 5: the bins whose dB magnitude exceeds the
    threshold, and the median of the group delay over them, in seconds. *)
Definition passband_bins (dB : list Q) (rolloffValue : Z) : list nat :=
  match py_max dB with
  | Raises _ => []
  | Returns peak =>
      List.filter
        (fun k => Qgtb (nth k dB 0%Q) (peak + inject_Z rolloffValue)%Q)
        (seq 0 (length dB))
  end.

Definition passband_median (dB gd : list Q) (rolloffValue : Z) (sr : Z)
    : npfloat :=
  np_div (np_median (map (fun k => nth k gd 0%Q) (passband_bins dB rolloffValue)))
    sr.

End Spec.

(** ** Observations up to the value of their numbers *)

Module Relations.
Import Jams.

(** Two observations with the same payloads whose times and durations are
    equal as numbers (the same rational may be written in several ways). *)
Definition obs_equiv {V C : Type} (o1 o2 : Observation V C) : Prop :=
  (time o1 == time o2)%Q /\ (duration o1 == duration o2)%Q
  /\ value o1 = value o2 /\ confidence o1 = confidence o2.

End Relations.

(** ** A delayed unit impulse, for concrete runs *)

Module ImpulseExample.

(** The curves of a unit impulse delayed by [k] samples: a flat 0 dB
    magnitude and a group delay of [k] in every bin. *)
Definition impulse_db (y : list Q) (n_fft : Z) : list Q :=
  replicate (Z.to_nat n_fft) 0%Q.

Definition impulse_gd (k : Q) (y : list Q) (n_fft : Z) : list Q :=
  replicate (Z.to_nat n_fft) k.

End ImpulseExample.

(** ** What a yielded state is made of *)

Module Yield.
Import IR.

(** The state that a source gives: its name, with the estimate computed
    from what the loader returned for it. *)
Definition state_of (freqz_db group_delay : list Q -> Z -> list Q)
    (load : string -> Z -> outcome (list Q * Z))
    (sr n_fft rolloff_value : Z) (fname : string) (st : State npfloat)
    : Prop :=
  filename st = fname
  /\ exists y_ir sr_ir,
       load fname sr = Returns (y_ir, sr_ir)
       /\ median_group_delay freqz_db group_delay y_ir sr_ir n_fft
            rolloff_value = Returns (ir_groupdelay st).

End Yield.

(** ** The convolution of scipy *)

Module Scipy.

(** Sample [i] of the full linear convolution of [in1] and [in2]. *)
Definition full_sample (in1 in2 : list Q) (i : nat) : Q :=
  fold_right Qplus 0%Q
    (map (fun j => if Nat.leb j i
                   then (nth (i - j) in1 0 * nth j in2 0)%Q else 0%Q)
       (seq 0 (length in2))).

Definition convolve_full (in1 in2 : list Q) : list Q :=
  map (full_sample in1 in2) (seq 0 (length in1 + length in2 - 1)).

(** scipy's [_centered(arr, newsize)]: the [newsize] entries from index
    [(len(arr) - newsize) // 2] on. *)
Definition centered (arr : list Q) (newsize : nat) : list Q :=
  let startind := (length arr - newsize) / 2 in
  take newsize (drop startind arr).

(** [scipy.signal.fftconvolve(in1, in2, mode="same")] on one-dimensional
    arrays, in exact arithmetic: an empty array when either input is empty
    (its early return), and otherwise the full linear convolution cut to
    the size of [in1] around its centre. *)
Definition fftconvolve_same (in1 in2 : list Q) : list Q :=
  match in1, in2 with
  | [], _ => []
  | _, [] => []
  | _, _ => centered (convolve_full in1 in2) (length in1)
  end.

(** A loader for a file without samples. *)
Definition empty_file (fname : string) (sr : Z) : outcome (list Q * Z) :=
  Returns ([], sr).

End Scipy.

(** * Properties *)

(** ** Comparisons *)

Lemma Qgtb_true a b : Qgtb a b = true <-> (b < a)%Q.
Proof.
  unfold Qgtb. rewrite negb_true_iff, <- not_true_iff_false, Qle_bool_iff.
  split; [apply Qnot_le_lt | apply Qlt_not_le].
Qed.

Lemma Qgtb_false a b : Qgtb a b = false <-> (a <= b)%Q.
Proof.
  unfold Qgtb. rewrite negb_false_iff. apply Qle_bool_iff.
Qed.

(** ** The store *)

Module StoreFacts.
Import Jams.

Section Store.

Context {V C : Type}.
Implicit Types (h : heap V C) (l : loc) (a : Annotation V C).
Implicit Types (o : Observation V C).

Lemma read_write_eq l a h : l < length h -> read (write l a h) l = a.
Proof.
  intros Hl. unfold read, write. by rewrite list_lookup_insert_eq.
Qed.

Lemma read_write_ne l l' a h : l <> l' -> read (write l a h) l' = read h l'.
Proof.
  intros Hl. unfold read, write. by rewrite list_lookup_insert_ne.
Qed.

Lemma length_write l a h : length (write l a h) = length h.
Proof. apply length_insert. Qed.

Lemma read_alloc_old a h l : l < length h -> read (h ++ [a]) l = read h l.
Proof.
  intros Hl. unfold read. by rewrite lookup_app_l.
Qed.

Lemma read_alloc_new a h : read (h ++ [a]) (length h) = a.
Proof.
  unfold read. by rewrite list_lookup_middle.
Qed.

Lemma length_append l o h : length (append l o h) = length h.
Proof. apply length_write. Qed.

Lemma read_append_eq l o h :
  l < length h ->
  read (append l o h) l = mkAnn (ann_duration (read h l)) (data (read h l) ++ [o]).
Proof. intros Hl. unfold append. by rewrite read_write_eq. Qed.

Lemma read_append_ne l l' o h : l <> l' -> read (append l o h) l' = read h l'.
Proof. intros Hl. unfold append. by rewrite read_write_ne. Qed.

Lemma read_beyond h l : length h <= l -> read h l = blank.
Proof.
  intros Hl. unfold read. by rewrite lookup_ge_None_2.
Qed.

(** Appending never changes the duration of any annotation. *)
Lemma ann_duration_append l l' o h :
  ann_duration (read (append l o h) l') = ann_duration (read h l').
Proof.
  destruct (decide (l = l')) as [<-|Hne]; [|by rewrite read_append_ne].
  destruct (decide (l < length h)) as [Hl|Hl]; [by rewrite read_append_eq|].
  unfold append, write. rewrite list_insert_ge; [done|lia].
Qed.

(** Appending only adds observations. *)
Lemma data_append_mono l l' o o' h :
  o' ∈ data (read h l') -> o' ∈ data (read (append l o h) l').
Proof.
  destruct (decide (l = l')) as [<-|Hne]; [|by rewrite read_append_ne].
  destruct (decide (l < length h)) as [Hl|Hl].
  - rewrite read_append_eq by done. simpl. rewrite elem_of_app. by left.
  - unfold append, write. rewrite list_insert_ge; [done|lia].
Qed.

Lemma data_alloc_mono a h l o :
  o ∈ data (read h l) -> o ∈ data (read (h ++ [a]) l).
Proof.
  destruct (decide (l < length h)) as [Hl|Hl]; [by rewrite read_alloc_old|].
  rewrite read_beyond by lia. simpl. by rewrite elem_of_nil.
Qed.

End Store.

End StoreFacts.

(** ** The annotation shifter *)

Module ShifterFacts.
Import Jams IR StoreFacts.

(** *** Time order *)

Lemma add_by_time_at_end {V C : Type} (o : Observation V C)
    (l : list (Observation V C)) :
  (forall p, p ∈ l -> (time p <= time o)%Q) -> add_by_time o l = l ++ [o].
Proof.
  induction l as [|p l IH]; intros Hl; simpl; [done|].
  assert (Qle_bool (time p) (time o) = true) as ->.
  { apply Qle_bool_iff, Hl. by left. }
  simpl. f_equal. apply IH. intros q Hq. apply Hl. by right.
Qed.

(** Inserting observations by time, one after the other and in time order,
    behind observations that start no later, is putting them at the end. *)
Lemma add_by_time_run {V C : Type} (l acc : list (Observation V C)) :
  time_ordered l ->
  (forall p q, p ∈ acc -> q ∈ l -> (time p <= time q)%Q) ->
  foldl (fun acc o => add_by_time o acc) acc l = acc ++ l.
Proof.
  revert acc. induction l as [|o l IH]; intros acc Hl Hacc; simpl.
  { by rewrite app_nil_r. }
  destruct Hl as [Ho Hl].
  rewrite add_by_time_at_end by (intros p Hp; apply Hacc; [done|by left]).
  rewrite IH, <- app_assoc; [done..|].
  intros p q [Hp| ->%list_elem_of_singleton]%elem_of_app Hq.
  - apply Hacc; [done|by right].
  - by apply Ho.
Qed.

Section DeformTimes.

Context {V C : Type}.
Variable slice : Annotation V C -> Q -> Q -> Annotation V C.
Implicit Types (h : heap V C) (a l : loc) (o : Observation V C).
Implicit Types (fr : frame) (g D : Q).

(** *** One iteration *)

Lemma deform_step_kept g o fr h :
  let D := ann_duration (read h (annotation fr)) in
  Qgtb (time o + g) D = false ->
  deform_step slice g o fr h =
    (Returns (mkFrame (annotation fr) (Some (duration (shifted g D o)))),
     append (annotation fr) (shifted g D o) h).
Proof.
  intros D HD. unfold deform_step. fold D. by rewrite HD.
Qed.

Lemma deform_step_dropped g o fr h :
  let cur := read h (annotation fr) in
  let D := ann_duration cur in
  Qgtb (time o + g) D = true ->
  deform_step slice g o fr h =
    if Qle_bool D 0 then (Raises ParameterError, h)
    else
      match deformed_duration fr with
      | None => (Raises UnboundLocalError, h ++ [slice cur 0 D])
      | Some dd =>
          (Returns (mkFrame (length h) (Some dd)),
           append (length h)
             (mkObs (time o + g)%Q dd (value o) (confidence o))
             (h ++ [slice cur 0 D]))
      end.
Proof.
  intros cur D HD. unfold deform_step, Annotation_slice.
  fold cur. fold D. rewrite HD.
  destruct (Qle_bool D 0); [done|]. simpl.
  by destruct (deformed_duration fr).
Qed.

Lemma Qle_bool_false (x y : Q) : Qle_bool x y = false <-> (y < x)%Q.
Proof.
  rewrite <- not_true_iff_false, Qle_bool_iff.
  split; [apply Qnot_le_lt|apply Qlt_not_le].
Qed.

Lemma deform_step_dropped_pos g o fr h :
  let cur := read h (annotation fr) in
  let D := ann_duration cur in
  (D < time o + g)%Q -> (0 < D)%Q ->
  deform_step slice g o fr h =
    match deformed_duration fr with
    | None => (Raises UnboundLocalError, h ++ [slice cur 0 D])
    | Some dd =>
        (Returns (mkFrame (length h) (Some dd)),
         append (length h)
           (mkObs (time o + g)%Q dd (value o) (confidence o))
           (h ++ [slice cur 0 D]))
    end.
Proof.
  intros cur D HD Hpos. rewrite deform_step_dropped by (by apply Qgtb_true).
  fold cur. fold D. apply Qle_bool_false in Hpos. by rewrite Hpos.
Qed.

Lemma deform_step_dropped_nonpos g o fr h :
  let D := ann_duration (read h (annotation fr)) in
  (D < time o + g)%Q -> (D <= 0)%Q ->
  deform_step slice g o fr h = (Raises ParameterError, h).
Proof.
  intros D HD Hnp. rewrite deform_step_dropped by (by apply Qgtb_true).
  fold D. apply Qle_bool_iff in Hnp. by rewrite Hnp.
Qed.

(** *** The loop *)

Lemma deform_loop_app g (l1 l2 : list (Observation V C)) fr h :
  deform_loop slice g (l1 ++ l2) fr h =
    match deform_loop slice g l1 fr h with
    | (Returns fr', h') => deform_loop slice g l2 fr' h'
    | (Raises e, h') => (Raises e, h')
    end.
Proof.
  revert fr h. induction l1 as [|o l1 IH]; intros fr h; simpl; [done|].
  destruct (deform_step slice g o fr h) as [[fr'|e] h']; [apply IH|done].
Qed.

(** Once [deformed_duration] is bound an iteration can only fail in the
    slice. *)
Lemma deform_step_bound g o fr h :
  is_Some (deformed_duration fr) ->
  (exists fr' h', deform_step slice g o fr h = (Returns fr', h')
     /\ is_Some (deformed_duration fr'))
  \/ deform_step slice g o fr h = (Raises ParameterError, h).
Proof.
  intros [dd Hdd].
  destruct (Qgtb (time o + g) (ann_duration (read h (annotation fr)))) eqn:HD.
  - rewrite deform_step_dropped, Hdd by done.
    destruct (Qle_bool _ _); [by right|left; eauto].
  - rewrite deform_step_kept by done. left. eauto.
Qed.

Lemma deform_loop_bound g (l : list (Observation V C)) fr h :
  is_Some (deformed_duration fr) ->
  exists out h', deform_loop slice g l fr h = (out, h')
    /\ ((exists fr', out = Returns fr' /\ is_Some (deformed_duration fr'))
        \/ out = Raises ParameterError).
Proof.
  revert fr h. induction l as [|o l IH]; intros fr h Hb; simpl.
  { eexists _, _. split; [done|]. left. eauto. }
  destruct (deform_step_bound g o fr h Hb) as [(fr1 & h1 & -> & Hb1)| ->].
  - by apply IH.
  - eexists _, _. split; [done|]. by right.
Qed.

(** *** After the variable [annotation] has left the caller's object *)

(** [n] is the size of the store when [deform_times] was called: the
    objects below [n] are the caller's, those from [n] on are copies made
    by the call. *)
Lemma deform_step_away n g o fr h out h' :
  n <= annotation fr -> annotation fr < length h ->
  deform_step slice g o fr h = (out, h') ->
  (forall l, l < n -> read h' l = read h l) /\ length h <= length h'
  /\ (forall l o', o' ∈ data (read h l) -> o' ∈ data (read h' l))
  /\ (forall fr', out = Returns fr' ->
        n <= annotation fr' /\ annotation fr' < length h'
        /\ appended_off n g o h').
Proof.
  intros Hn Hcur.
  destruct (Qgtb (time o + g) (ann_duration (read h (annotation fr)))) eqn:HD.
  - rewrite deform_step_dropped by done.
    destruct (Qle_bool _ _); [by intros [= <- <-]|].
    destruct (deformed_duration fr) as [dd|]; intros [= <- <-].
    + rewrite length_append, length_app. simpl.
      split_and!; [|lia| |].
      { intros l Hl. by rewrite read_append_ne, read_alloc_old by lia. }
      { intros l o' Ho'. by apply data_append_mono, data_alloc_mono. }
      intros fr' [= <-]. simpl. split_and!; [lia|lia|].
      exists (length h), (mkObs (time o + g)%Q dd (value o) (confidence o)).
      rewrite read_append_eq by (rewrite length_app; simpl; lia). simpl.
      split_and!; [lia| |done..]. rewrite elem_of_app, list_elem_of_singleton.
      by right.
    + rewrite length_app. simpl.
      split_and!; [|lia| |done].
      { intros l Hl. by rewrite read_alloc_old by lia. }
      intros l o' Ho'. by apply data_alloc_mono.
  - rewrite deform_step_kept by done. intros [= <- <-].
    rewrite length_append.
    split_and!; [|lia| |].
    { intros l Hl. by rewrite read_append_ne by lia. }
    { intros l o' Ho'. by apply data_append_mono. }
    intros fr' [= <-]. simpl. split_and!; [done..|].
    exists (annotation fr), (shifted g (ann_duration (read h (annotation fr))) o).
    rewrite read_append_eq by done. simpl.
    split_and!; [done| |done..]. rewrite elem_of_app, list_elem_of_singleton.
    by right.
Qed.

Lemma appended_off_mono n g o h h' :
  (forall l o', o' ∈ data (read h l) -> o' ∈ data (read h' l)) ->
  appended_off n g o h -> appended_off n g o h'.
Proof.
  intros Hmono (l & o' & Hl & Ho' & Hrest). exists l, o'. auto.
Qed.

Lemma deform_loop_away n g (os : list (Observation V C)) fr h out h' :
  n <= annotation fr -> annotation fr < length h ->
  deform_loop slice g os fr h = (out, h') ->
  (forall l, l < n -> read h' l = read h l) /\ length h <= length h'
  /\ (forall l o', o' ∈ data (read h l) -> o' ∈ data (read h' l))
  /\ (forall fr', out = Returns fr' ->
        n <= annotation fr' /\ annotation fr' < length h'
        /\ forall o, o ∈ os -> appended_off n g o h').
Proof.
  revert fr h. induction os as [|o os IH]; intros fr h Hn Hcur; simpl.
  - intros [= <- <-]. split_and!; [done..|].
    intros fr' [= <-]. split_and!; [done..|]. intros o Ho.
    by apply elem_of_nil in Ho.
  - destruct (deform_step slice g o fr h) as [[fr1|e] h1] eqn:Hstep.
    + destruct (deform_step_away _ _ _ _ _ _ _ Hn Hcur Hstep)
        as (Hfa & Hlen & Hmono & Hret).
      destruct (Hret fr1 eq_refl) as (Hn1 & Hcur1 & Hland).
      intros Hloop.
      destruct (IH fr1 h1 Hn1 Hcur1 Hloop) as (Hfa' & Hlen' & Hmono' & Hret').
      split_and!; [|lia|by auto|].
      { intros l Hl. by rewrite Hfa', Hfa. }
      intros fr' Hout. destruct (Hret' fr' Hout) as (? & ? & Hall).
      split_and!; [done..|]. intros o1 [->|Ho1]%elem_of_cons; [|by auto].
      by eapply appended_off_mono.
    + intros [= <- <-].
      destruct (deform_step_away _ _ _ _ _ _ _ Hn Hcur Hstep)
        as (Hfa & Hlen & Hmono & _).
      split_and!; [done..|]. intros fr' [=].
Qed.

(** *** What the caller's annotation holds in the end *)

Lemma deform_loop_caller a g (os : list (Observation V C)) fr h :
  annotation fr = a -> a < length h ->
  let D := ann_duration (read h a) in
  read (deform_loop slice g os fr h).2 a =
    mkAnn D (data (read h a) ++ (shifted g D <$> take_kept g D os)).
Proof.
  revert fr h. induction os as [|o os IH]; intros fr h Hfr Ha D; simpl.
  { rewrite app_nil_r. subst D. by destruct (read h a). }
  destruct (Qgtb (time o + g) D) eqn:HD.
  - rewrite deform_step_dropped by (by rewrite Hfr).
    simpl. rewrite app_nil_r.
    assert (read h a = mkAnn D (data (read h a))) as Heta
      by (subst D; by destruct (read h a)).
    destruct (Qle_bool _ _); [done|].
    destruct (deformed_duration fr) as [dd|]; simpl.
    + match goal with |- read (deform_loop _ _ _ ?f ?h1).2 _ = _ =>
        destruct (deform_loop slice g os f h1) as [out h'] eqn:Hloop end.
      simpl. apply (deform_loop_away (length h)) in Hloop as (Heq & _); simpl.
      * by rewrite Heq, read_append_ne, read_alloc_old by lia.
      * done.
      * rewrite length_append, length_app. simpl. lia.
    + by rewrite read_alloc_old.
  - rewrite deform_step_kept by (by rewrite Hfr). rewrite Hfr. fold D.
    rewrite IH; [|done|by rewrite length_append].
    rewrite ann_duration_append, read_append_eq by done. fold D. simpl.
    by rewrite <- app_assoc.
Qed.

(** After [deform_times], whether it returned or raised, the caller's
    annotation holds the shifted observations that were drained before the
    first one whose shifted onset lies beyond the duration, and nothing
    else; its duration is unchanged. *)
Lemma deform_times_caller a (state : State Q) h :
  a < length h ->
  let D := ann_duration (read h a) in
  let g := ir_groupdelay state in
  read (deform_times slice a state h).2 a =
    mkAnn D (shifted g D <$> take_kept g D (data (read h a))).
Proof.
  intros Ha D g. unfold deform_times, pop_data. fold D. fold g.
  pose proof (deform_loop_caller a g (data (read h a)) (mkFrame a None)
    (write a (mkAnn D []) h) eq_refl) as Hloop.
  rewrite length_write, read_write_eq in Hloop by done. simpl in Hloop.
  specialize (Hloop Ha).
  by destruct (deform_loop _ _ _ _ _) as [[fr'|e] h'].
Qed.

Lemma take_kept_elem g D (os : list (Observation V C)) o :
  o ∈ take_kept g D os -> o ∈ os /\ (time o + g <= D)%Q.
Proof.
  induction os as [|p os IH]; simpl; [by intros ?%elem_of_nil|].
  destruct (Qgtb (time p + g) D) eqn:HD; [by intros ?%elem_of_nil|].
  apply Qgtb_false in HD. rewrite !elem_of_cons.
  intros [->|Ho]; [by auto|]. destruct (IH Ho). auto.
Qed.

Lemma take_kept_prefix g D (pre post : list (Observation V C)) o :
  (forall p, p ∈ pre -> (time p + g <= D)%Q) ->
  (D < time o + g)%Q ->
  take_kept g D (pre ++ o :: post) = pre.
Proof.
  intros Hpre Ho. induction pre as [|p pre IH]; simpl.
  - apply Qgtb_true in Ho. by rewrite Ho.
  - assert (Qgtb (time p + g) D = false) as ->.
    { apply Qgtb_false, Hpre. by left. }
    f_equal. apply IH. intros q Hq. apply Hpre. by right.
Qed.

Lemma take_kept_all g D (os : list (Observation V C)) :
  (forall p, p ∈ os -> (time p + g <= D)%Q) -> take_kept g D os = os.
Proof.
  intros Hos. induction os as [|p os IH]; simpl; [done|].
  assert (Qgtb (time p + g) D = false) as ->.
  { apply Qgtb_false, Hos. by left. }
  f_equal. apply IH. intros q Hq. apply Hos. by right.
Qed.

(** In time order the observations that are kept come first: what is
    drained before the first drop is everything whose shifted onset is at
    most [D]. *)
Lemma take_kept_filter g D (os : list (Observation V C)) :
  time_ordered os -> take_kept g D os = List.filter (kept g D) os.
Proof.
  induction os as [|o os IH]; simpl; [done|]. intros [Ho Hos].
  unfold kept at 1. destruct (Qgtb (time o + g) D) eqn:HD; simpl.
  - apply Qgtb_true in HD. symmetry.
    clear IH Hos. induction os as [|p os IH]; simpl; [done|].
    assert (kept g D p = false) as ->.
    { unfold kept. apply negb_false_iff, Qgtb_true.
      pose proof (Ho p ltac:(by left)). lra. }
    apply IH. intros q Hq. apply Ho. by right.
  - by rewrite IH.
Qed.

(** Shifting keeps the time order, so that the observations put back into
    the caller's annotation arrive in time order. *)
Lemma shifted_in_time_order g D (os : list (Observation V C)) :
  time_ordered os -> time_ordered (shifted g D <$> os).
Proof.
  induction os as [|o os IH]; simpl; [done|]. intros [Ho Hos].
  split; [|by apply IH].
  intros p' (p & -> & Hp)%list_elem_of_fmap. simpl.
  pose proof (Ho p Hp). lra.
Qed.

(** The duration chosen on the kept path is the smaller of the
    observation's duration and the room left up to [D]. *)
Lemma shifted_duration_min g D o :
  (duration (shifted g D o) == Qmin (duration o) (D - (time o + g)))%Q.
Proof.
  unfold shifted; simpl.
  destruct (Qgtb (time o + duration o + g) D) eqn:HD.
  - apply Qgtb_true in HD. rewrite Q.min_r; lra.
  - apply Qgtb_false in HD. rewrite Q.min_l; lra.
Qed.

Lemma shifted_within g D o :
  (time o + g <= D)%Q ->
  (time (shifted g D o) + duration (shifted g D o) <= D)%Q.
Proof.
  intros Ho. unfold shifted; simpl.
  destruct (Qgtb (time o + duration o + g) D) eqn:HD.
  - lra.
  - apply Qgtb_false in HD. lra.
Qed.

(** While every observation is kept the variable [annotation] stays on the
    caller's object and the loop returns. *)
Lemma deform_loop_all_kept a g (os : list (Observation V C)) fr h :
  annotation fr = a ->
  (forall p, p ∈ os -> (time p + g <= ann_duration (read h a))%Q) ->
  exists dd h', deform_loop slice g os fr h = (Returns (mkFrame a dd), h')
    /\ length h' = length h
    /\ ann_duration (read h' a) = ann_duration (read h a)
    /\ (os <> [] -> is_Some dd)
    /\ (os = [] -> dd = deformed_duration fr).
Proof.
  revert fr h. induction os as [|o os IH]; intros fr h Hfr Hos; simpl.
  - exists (deformed_duration fr), h. subst a. by destruct fr.
  - rewrite deform_step_kept
      by (rewrite Hfr; apply Qgtb_false, Hos; by left).
    rewrite Hfr.
    edestruct (IH (mkFrame a (Some (duration (shifted g
                 (ann_duration (read h a)) o))))
               (append a (shifted g (ann_duration (read h a)) o) h) eq_refl)
      as (dd & h' & -> & Hlen & HD & Hne & Hnil).
    { intros p Hp. rewrite ann_duration_append. apply Hos. by right. }
    exists dd, h'. rewrite length_append in Hlen.
    rewrite ann_duration_append in HD.
    split_and!; [done..| |done].
    intros _. destruct os; [by rewrite Hnil|by apply Hne].
Qed.

(** When slicing an annotation to its own span keeps its duration (as it
    does for an annotation that starts at time zero), a loop that runs on
    an annotation of positive duration with [deformed_duration] bound
    never fails. *)
Lemma deform_loop_keeps_running g (os : list (Observation V C)) fr h :
  (forall c, ann_duration (slice c 0 (ann_duration c)) = ann_duration c) ->
  is_Some (deformed_duration fr) ->
  annotation fr < length h ->
  (0 < ann_duration (read h (annotation fr)))%Q ->
  exists fr' h', deform_loop slice g os fr h = (Returns fr', h').
Proof.
  intros Hkeep. revert fr h.
  induction os as [|o os IH]; intros fr h [dd Hdd] Hcur Hpos; simpl;
    [eauto|].
  destruct (Qgtb (time o + g) (ann_duration (read h (annotation fr)))) eqn:HD.
  - apply Qgtb_true in HD. rewrite deform_step_dropped_pos, Hdd by done.
    apply IH; simpl; [by eexists| |].
    + rewrite length_append, length_app. simpl. lia.
    + by rewrite ann_duration_append, read_alloc_new, Hkeep.
  - rewrite deform_step_kept by done.
    apply IH; simpl; [by eexists|by rewrite length_append|].
    by rewrite ann_duration_append.
Qed.

(** From a dropped observation on, in an annotation of positive duration
    and with [deformed_duration] bound: the dropped observation lands in a
    fresh copy, the loop can only fail in a later slice, and if it returns
    every later observation has landed in a copy too. *)
Lemma deform_loop_from_drop a g o (post : list (Observation V C)) dd h :
  a < length h ->
  (ann_duration (read h a) < time o + g)%Q ->
  (0 < ann_duration (read h a))%Q ->
  exists out h',
    deform_loop slice g (o :: post) (mkFrame a (Some dd)) h = (out, h')
    /\ appended_off (length h) g o h'
    /\ ((exists fr', out = Returns fr') \/ out = Raises ParameterError)
    /\ ((exists fr', out = Returns fr') ->
         forall q, q ∈ post -> appended_off (length h) g q h')
    /\ ((forall c, ann_duration (slice c 0 (ann_duration c)) = ann_duration c)
        -> exists fr', out = Returns fr').
Proof.
  intros Ha Ho Hpos. simpl.
  rewrite deform_step_dropped_pos by done. simpl.
  set (copy := slice (read h a) 0 (ann_duration (read h a))).
  set (o' := mkObs (time o + g)%Q dd (value o) (confidence o)).
  set (h2 := append (length h) o' (h ++ [copy])).
  assert (length h2 = S (length h)) as Hlen2.
  { subst h2. rewrite length_append, length_app. simpl. lia. }
  destruct (deform_loop_bound g post (mkFrame (length h) (Some dd)) h2)
    as (out & h' & Hloop & Hout); [by eexists|].
  exists out, h'. split; [done|].
  assert ((forall c, ann_duration (slice c 0 (ann_duration c))
                     = ann_duration c) ->
          exists fr', out = Returns fr') as Hruns.
  { intros Hkeep.
    destruct (deform_loop_keeps_running g post
                (mkFrame (length h) (Some dd)) h2 Hkeep)
      as (fr' & h'' & Hloop'); simpl; [by eexists|lia| |].
    - subst h2 copy.
      by rewrite ann_duration_append, read_alloc_new, Hkeep.
    - rewrite Hloop in Hloop'. injection Hloop' as -> _. by eexists. }
  apply (deform_loop_away (length h)) in Hloop as (_ & _ & Hmono & Hret);
    [|simpl; lia..].
  split_and!; [| | |done].
  - apply (appended_off_mono (length h) g o h2); [done|].
    exists (length h), o'. subst h2.
    rewrite read_append_eq by (rewrite length_app; simpl; lia). simpl.
    split_and!; [lia| |done..].
    rewrite elem_of_app, list_elem_of_singleton. by right.
  - destruct Hout as [(fr' & -> & _)| ->]; [left; eauto|by right].
  - intros [fr' ->]. by destruct (Hret fr' eq_refl) as (_ & _ & Hpost).
Qed.

(** *** How the call ends *)

Lemma data_in_store a h o (rest : list (Observation V C)) :
  data (read h a) = o :: rest -> a < length h.
Proof.
  intros Hdata. destruct (decide (a < length h)) as [|Hge]; [done|].
  rewrite read_beyond in Hdata by lia. done.
Qed.

Lemma deform_times_first_drop a (state : State Q) h o rest :
  data (read h a) = o :: rest ->
  (ann_duration (read h a) < time o + ir_groupdelay state)%Q ->
  (deform_times slice a state h).1 =
    if Qle_bool (ann_duration (read h a)) 0
    then Raises ParameterError else Raises UnboundLocalError.
Proof.
  intros Hdata Ho. pose proof (data_in_store _ _ _ _ Hdata) as Ha.
  unfold deform_times, pop_data. rewrite Hdata. simpl.
  rewrite deform_step_dropped; simpl; rewrite read_write_eq by done; simpl.
  - by destruct (Qle_bool _ _).
  - by apply Qgtb_true.
Qed.

Lemma deform_times_first_kept a (state : State Q) h o rest :
  data (read h a) = o :: rest ->
  (time o + ir_groupdelay state <= ann_duration (read h a))%Q ->
  (deform_times slice a state h).1 = Returns tt
  \/ (deform_times slice a state h).1 = Raises ParameterError.
Proof.
  intros Hdata Ho. pose proof (data_in_store _ _ _ _ Hdata) as Ha.
  unfold deform_times, pop_data. rewrite Hdata. simpl.
  rewrite deform_step_kept
    by (simpl; rewrite read_write_eq by done; simpl; by apply Qgtb_false).
  match goal with |- context [deform_loop _ _ _ ?f ?h1] =>
    destruct (deform_loop_bound (ir_groupdelay state) rest f h1)
      as (out & h' & -> & [(fr' & -> & _)| ->]); [by eexists|by left|by right]
  end.
Qed.

(** The first dropped observation of a list that has one. *)
Lemma first_dropped g D (os : list (Observation V C)) p :
  p ∈ os -> (D < time p + g)%Q ->
  exists pre o post, os = pre ++ o :: post
    /\ (forall q, q ∈ pre -> (time q + g <= D)%Q) /\ (D < time o + g)%Q.
Proof.
  induction os as [|x os IH]; [by intros ?%elem_of_nil|].
  intros Hp Hdrop. destruct (Qgtb (time x + g) D) eqn:Hx.
  - exists [], x, os. apply Qgtb_true in Hx. split_and!; [done| |done].
    intros q Hq. by apply elem_of_nil in Hq.
  - apply Qgtb_false in Hx.
    apply elem_of_cons in Hp as [->|Hp]; [lra|].
    destruct (IH Hp Hdrop) as (pre & o & post & -> & Hpre & Ho).
    exists (x :: pre), o, post. split_and!; [done| |done].
    intros q [->|Hq]%elem_of_cons; auto.
Qed.

(** A drop in an annotation whose duration is not positive is refused by
    the slice, wherever it comes in the list. *)
Lemma deform_times_drop_nonpos a (state : State Q) h pre o post :
  let g := ir_groupdelay state in
  let D := ann_duration (read h a) in
  data (read h a) = pre ++ o :: post ->
  (forall p, p ∈ pre -> (time p + g <= D)%Q) ->
  (D < time o + g)%Q -> (D <= 0)%Q ->
  (deform_times slice a state h).1 = Raises ParameterError.
Proof.
  intros g D Hdata Hpre Ho Hnp.
  assert (a < length h) as Ha.
  { destruct (decide (a < length h)) as [|Hge]; [done|].
    rewrite read_beyond in Hdata by lia. by destruct pre. }
  unfold deform_times, pop_data. fold D. fold g.
  rewrite Hdata, deform_loop_app.
  set (h0 := write a (mkAnn D []) h).
  assert (read h0 a = mkAnn D []) as Hread0
    by (subst h0; by rewrite read_write_eq).
  destruct (deform_loop_all_kept a g pre (mkFrame a None) h0 eq_refl)
    as (dd & h1 & -> & Hlen & HD & _).
  { intros p Hp. rewrite Hread0. by apply Hpre. }
  rewrite Hread0 in HD. simpl in HD. simpl.
  rewrite deform_step_dropped_nonpos; simpl; rewrite ?HD; done.
Qed.

(** When no drained observation is dropped the call returns and the
    caller's annotation holds every drained observation, shifted. *)
Lemma deform_times_no_drop a (state : State Q) h :
  let g := ir_groupdelay state in
  let D := ann_duration (read h a) in
  a < length h ->
  (forall p, p ∈ data (read h a) -> (time p + g <= D)%Q) ->
  (deform_times slice a state h).1 = Returns tt
  /\ read (deform_times slice a state h).2 a =
       mkAnn D (shifted g D <$> data (read h a)).
Proof.
  intros g D Ha Hall. split.
  - unfold deform_times, pop_data. fold D. fold g.
    set (h0 := write a (mkAnn D []) h).
    assert (read h0 a = mkAnn D []) as Hread0
      by (subst h0; by rewrite read_write_eq).
    destruct (deform_loop_all_kept a g (data (read h a)) (mkFrame a None) h0
                eq_refl) as (dd & h1 & -> & _); [|done].
    intros p Hp. rewrite Hread0. by apply Hall.
  - rewrite deform_times_caller by done. fold g. fold D.
    by rewrite take_kept_all.
Qed.

(** *** The claims about the shifter *)

(** C7.  For an annotation whose observations are in time order (as JAMS
    keeps and drains them), the shifter puts into the caller's annotation
    exactly one observation for every drained observation whose shifted
    onset is at most the duration, in their order, and nothing else,
    whether the call goes on to return or to raise.  That observation has
    the time [obs.time + delay], the payloads of [obs], and the duration
    [min(obs.duration, duration - shiftedOnset)]: the room left when the
    shifted span overruns the duration, and [obs.duration] otherwise. *)
Theorem kept_observation_appended a (state : State Q) h :
  let g := ir_groupdelay state in
  let D := ann_duration (read h a) in
  let after := read (deform_times slice a state h).2 a in
  a < length h ->
  time_ordered (data (read h a)) ->
  data after = shifted g D <$> List.filter (kept g D) (data (read h a))
  /\ forall o, (time o + g <= D)%Q ->
       time (shifted g D o) = (time o + g)%Q
       /\ value (shifted g D o) = value o
       /\ confidence (shifted g D o) = confidence o
       /\ (duration (shifted g D o)
           == Qmin (duration o) (D - (time o + g)))%Q
       /\ ((D < time o + g + duration o)%Q ->
            duration (shifted g D o) = (D - time o - g)%Q)
       /\ ((time o + g + duration o <= D)%Q ->
            duration (shifted g D o) = duration o).
Proof.
  intros g D after Ha Hord. split.
  - subst after. rewrite deform_times_caller by done. fold g. fold D.
    simpl. by rewrite take_kept_filter.
  - intros o Ho. split_and!; [done..| | |].
    + apply shifted_duration_min.
    + intros Hover. simpl.
      assert (Qgtb (time o + duration o + g) D = true) as ->; [|done].
      apply Qgtb_true. lra.
    + intros Hfit. simpl.
      assert (Qgtb (time o + duration o + g) D = false) as ->; [|done].
      apply Qgtb_false. lra.
Qed.

(** C3, as the code has it.  When the first drained observation has a
    shifted onset strictly beyond the annotation's duration and that
    duration is positive, the shifter raises the unbound-local error: the
    drop branch assigns no [deformed_duration], and the [append] that
    follows reads it.  When the duration is not positive, the slice of the
    drop branch raises [ParameterError] before that.  In a later drop
    iteration on an annotation of positive duration the same [append]
    reads the duration left by an earlier observation: the observation it
    adds, last in the sliced copy, carries that stale duration. *)
Theorem first_dropped_raises a (state : State Q) h o rest :
  let g := ir_groupdelay state in
  let D := ann_duration (read h a) in
  data (read h a) = o :: rest ->
  (D < time o + g)%Q ->
  ((0 < D)%Q -> (deform_times slice a state h).1 = Raises UnboundLocalError)
  /\ ((D <= 0)%Q -> (deform_times slice a state h).1 = Raises ParameterError)
  /\ forall fr h1 o1 stale,
       deformed_duration fr = Some stale ->
       (ann_duration (read h1 (annotation fr)) < time o1 + g)%Q ->
       (0 < ann_duration (read h1 (annotation fr)))%Q ->
       exists h',
         deform_step slice g o1 fr h1
           = (Returns (mkFrame (length h1) (Some stale)), h')
         /\ last (data (read h' (length h1)))
            = Some (mkObs (time o1 + g)%Q stale (value o1) (confidence o1)).
Proof.
  intros g D Hdata Ho. split_and!.
  - intros Hpos. rewrite (deform_times_first_drop a state h o rest) by done.
    fold D. apply Qle_bool_false in Hpos. by rewrite Hpos.
  - intros Hnp. rewrite (deform_times_first_drop a state h o rest) by done.
    fold D. apply Qle_bool_iff in Hnp. by rewrite Hnp.
  - intros fr h1 o1 stale Hstale Ho1 Hpos1.
    rewrite deform_step_dropped_pos, Hstale by done.
    eexists. split; [done|].
    rewrite read_append_eq by (rewrite length_app; simpl; lia). simpl.
    apply last_snoc.
Qed.

(** C2, as the code has it.  Whatever the sign of the delay and whether the
    shifter returned or raised, every observation of the caller's
    annotation afterwards ends within the annotation's duration, which is
    unchanged, and is a drained observation moved by the delay with its
    value and confidence untouched.  Its time is non-negative when the
    source time and the delay are. *)
Theorem shifted_observations_bounded a (state : State Q) h o' :
  let g := ir_groupdelay state in
  let D := ann_duration (read h a) in
  let after := read (deform_times slice a state h).2 a in
  a < length h ->
  o' ∈ data after ->
  ann_duration after = D
  /\ (time o' + duration o' <= D)%Q
  /\ exists o, o ∈ data (read h a)
       /\ time o' = (time o + g)%Q
       /\ value o' = value o /\ confidence o' = confidence o
       /\ ((0 <= time o)%Q -> (0 <= g)%Q -> (0 <= time o')%Q).
Proof.
  intros g D after Ha. subst after. rewrite deform_times_caller by done.
  fold D. fold g. simpl.
  intros (o & -> & [Ho Hkept]%take_kept_elem)%list_elem_of_fmap.
  split_and!; [done|by apply shifted_within|].
  exists o. simpl. split_and!; [done..|]. intros. lra.
Qed.

(** C4, as the code has it.  Once a drained observation takes the drop
    branch nothing more reaches the caller's annotation, which ends up
    with exactly the shifted observations drained before that point.  If
    the annotation's duration is not positive, the slice raises
    [ParameterError].  If it is positive and no earlier observation bound
    [deformed_duration], the call raises the unbound-local error.  If it
    is positive and an earlier observation did, that observation is
    appended to a copy made during the call (an object that was not in the
    store before); the call then returns, with every later observation
    appended to such a copy too, unless the slice of a later drop raises
    [ParameterError], which does not happen when slicing an annotation to
    its own span keeps its duration. *)
Theorem drop_detaches_caller a (state : State Q) h pre o post :
  let g := ir_groupdelay state in
  let D := ann_duration (read h a) in
  let r := deform_times slice a state h in
  data (read h a) = pre ++ o :: post ->
  (forall p, p ∈ pre -> (time p + g <= D)%Q) ->
  (D < time o + g)%Q ->
  read r.2 a = mkAnn D (shifted g D <$> pre)
  /\ ((D <= 0)%Q -> r.1 = Raises ParameterError)
  /\ ((0 < D)%Q -> pre = [] -> r.1 = Raises UnboundLocalError)
  /\ ((0 < D)%Q -> pre <> [] ->
        appended_off (length h) g o r.2
        /\ (r.1 = Returns tt \/ r.1 = Raises ParameterError)
        /\ (r.1 = Returns tt ->
              forall q, q ∈ post -> appended_off (length h) g q r.2)
        /\ ((forall c, ann_duration (slice c 0 (ann_duration c))
                       = ann_duration c) ->
            r.1 = Returns tt)).
Proof.
  intros g D r Hdata Hpre Ho.
  assert (a < length h) as Ha.
  { destruct (decide (a < length h)) as [|Hge]; [done|].
    rewrite read_beyond in Hdata by lia. by destruct pre. }
  split_and!.
  - subst r. rewrite deform_times_caller by done. fold D. fold g.
    by rewrite Hdata, take_kept_prefix.
  - intros Hnp. subst r. by eapply deform_times_drop_nonpos.
  - intros Hpos ->. subst r.
    rewrite (deform_times_first_drop a state h o post) by done.
    fold D. apply Qle_bool_false in Hpos. by rewrite Hpos.
  - intros Hpos Hne. subst r. unfold deform_times, pop_data. fold D. fold g.
    rewrite Hdata, deform_loop_app.
    set (h0 := write a (mkAnn D []) h).
    assert (read h0 a = mkAnn D []) as Hread0
      by (subst h0; by rewrite read_write_eq).
    destruct (deform_loop_all_kept a g pre (mkFrame a None) h0 eq_refl)
      as (dd & h1 & -> & Hlen & HD & Hsome & _).
    { intros p Hp. rewrite Hread0. by apply Hpre. }
    destruct (Hsome Hne) as [d ->].
    rewrite Hread0 in HD. simpl in HD.
    destruct (deform_loop_from_drop a g o post d h1)
      as (out & h' & -> & Hoff & Hout & Hpost & Hruns).
    { subst h0. rewrite Hlen, length_write. done. }
    { by rewrite HD. }
    { by rewrite HD. }
    subst h0. rewrite Hlen, length_write in Hoff, Hpost.
    destruct Hout as [[fr' ->]| ->]; simpl.
    + split_and!; [done|by left| |done]. intros _. apply Hpost. by eexists.
    + split_and!; [done|by right|done|].
      intros Hkeep. by destruct (Hruns Hkeep).
Qed.

(** C1.  An observation whose shifted onset is strictly beyond the
    annotation's duration never reaches the caller's annotation: whether
    the call returns or raises, no observation there afterwards has that
    shifted onset, and none starts beyond the duration at all. *)
Theorem dropped_never_reaches_caller a (state : State Q) h o o' :
  let g := ir_groupdelay state in
  let D := ann_duration (read h a) in
  a < length h ->
  o ∈ data (read h a) ->
  (D < time o + g)%Q ->
  o' ∈ data (read (deform_times slice a state h).2 a) ->
  (time o' <= D)%Q /\ ~ (time o' == time o + g)%Q.
Proof.
  intros g D Ha Ho Hdrop. rewrite deform_times_caller by done.
  fold g. fold D. simpl.
  intros (p & -> & [Hp Hkept]%take_kept_elem)%list_elem_of_fmap. simpl.
  split; [done|]. intros Heq. lra.
Qed.

End DeformTimes.

(** *** The shifter on concrete annotations *)

Open Scope Q_scope.

Lemma dropped_never_reaches_caller_witness :
  let put_back := mkObs 2 2 "early"%string 1 in
  time put_back <= 10 /\ ~ (time put_back == (19 # 2) + 1).
Proof.
  apply (dropped_never_reaches_caller clip_slice 0%nat (mkState "ir.wav" 1)
           [mkAnn 10 [mkObs 1 2 "early"%string 1;
                      mkObs (19 # 2) 1 "late"%string 1]]
           (mkObs (19 # 2) 1 "late"%string 1)
           (mkObs 2 2 "early"%string 1)).
  - simpl. lia.
  - apply list_elem_of_further, list_elem_of_here.
  - by vm_compute.
  - vm_compute. apply list_elem_of_here.
Defined.

Lemma kept_observation_appended_witness :
  let first := mkObs 1 2 "first"%string 1 in
  let second := mkObs (19 # 2) 1 "second"%string 1 in
  let third := mkObs (49 # 5) 1 "third"%string 1 in
  let r := deform_times clip_slice 0%nat (mkState "ir.wav" (3 # 10))
             [mkAnn 10 [first; second; third]] in
  data (read r.2 0%nat)
    = [shifted (3 # 10) 10 first; shifted (3 # 10) 10 second].
Proof.
  cbv zeta.
  destruct (kept_observation_appended clip_slice 0%nat
              (mkState "ir.wav" (3 # 10))
              [mkAnn 10 [mkObs 1 2 "first"%string 1;
                         mkObs (19 # 2) 1 "second"%string 1;
                         mkObs (49 # 5) 1 "third"%string 1]])
    as [Hdata _].
  - simpl. lia.
  - simpl. split_and!; try done; intros p Hp;
      repeat (apply elem_of_cons in Hp as [->|Hp]; [by vm_compute|]);
      by apply elem_of_nil in Hp.
  - rewrite Hdata. reflexivity.
Defined.

(** C3 fails as stated: in an annotation of duration zero the first drained
    observation takes the drop branch and the call raises, but the error
    is the [ParameterError] of the slice. *)
Lemma zero_duration_first_drop :
  let o := mkObs 1 1 "late"%string 1 in
  let r := deform_times clip_slice 0%nat (mkState "ir.wav" 0)
             [mkAnn 0 [o]] in
  0 < time o + 0
  /\ r.1 = Raises ParameterError
  /\ r.1 <> Raises UnboundLocalError.
Proof. by vm_compute. Qed.

Lemma first_dropped_raises_witness :
  let o := mkObs (19 # 2) 1 "late"%string 1 in
  (deform_times clip_slice 0%nat (mkState "ir.wav" 1) [mkAnn 10 [o]]).1
    = Raises UnboundLocalError.
Proof.
  apply (first_dropped_raises clip_slice 0%nat (mkState "ir.wav" 1)
           [mkAnn 10 [mkObs (19 # 2) 1 "late"%string 1]]
           (mkObs (19 # 2) 1 "late"%string 1) []).
  - reflexivity.
  - by vm_compute.
  - by vm_compute.
Defined.

(** C2 fails as stated: a negative delay moves an observation before the
    start of the track. *)
Lemma negative_delay_negative_time :
  let h := [mkAnn 10 [mkObs (1 # 2) 1 "a"%string 1]] in
  let r := deform_times clip_slice 0%nat (mkState "ir.wav" (-1)) h in
  exists o', o' ∈ data (read r.2 0%nat) /\ ~ (0 <= time o').
Proof.
  exists (mkObs (-1 # 2) 1 "a"%string 1). split.
  - vm_compute. apply list_elem_of_here.
  - by vm_compute.
Qed.

Lemma shifted_observations_bounded_witness :
  let o' := mkObs (196 # 20) (4 # 20) "a"%string 1 in
  time o' + duration o' <= 10 /\ 0 <= time o'.
Proof.
  destruct (shifted_observations_bounded clip_slice 0%nat
              (mkState "ir.wav" (3 # 10))
              [mkAnn 10 [mkObs (19 # 2) 1 "a"%string 1]]
              (mkObs (196 # 20) (4 # 20) "a"%string 1))
    as (_ & Hend & o & Ho & Htime & _ & _ & Hpos).
  - simpl. lia.
  - vm_compute. apply list_elem_of_here.
  - split; [exact Hend|]. by vm_compute.
Defined.

(** C4 fails as stated: when the first drained observation takes the drop
    branch, it is appended to no object at all. *)
Lemma first_drop_appends_nowhere :
  let o := mkObs (19 # 2) 1 "late"%string 1 in
  let r :=
    deform_times clip_slice 0%nat (mkState "ir.wav" 1) [mkAnn 10 [o]] in
  Qgtb (time o + 1) 10 = true
  /\ ~ exists l o', o' ∈ data (read r.2 l) /\ time o' = time o + 1.
Proof.
  split; [reflexivity|].
  intros (l & o' & Ho' & _). revert Ho'.
  destruct l as [|[|l]]; vm_compute; by intros ?%elem_of_nil.
Qed.

Lemma drop_detaches_caller_witness :
  let early := mkObs 1 2 "early"%string 1 in
  let late := mkObs (19 # 2) 1 "late"%string 1 in
  let later := mkObs (49 # 5) 1 "later"%string 1 in
  let r := deform_times clip_slice 0%nat (mkState "ir.wav" 1)
             [mkAnn 10 [early; late; later]] in
  read r.2 0%nat = mkAnn 10 [shifted 1 10 early]
  /\ appended_off 1 1 late r.2.
Proof.
  destruct (drop_detaches_caller clip_slice 0%nat (mkState "ir.wav" 1)
              [mkAnn 10 [mkObs 1 2 "early"%string 1;
                         mkObs (19 # 2) 1 "late"%string 1;
                         mkObs (49 # 5) 1 "later"%string 1]]
              [mkObs 1 2 "early"%string 1]
              (mkObs (19 # 2) 1 "late"%string 1)
              [mkObs (49 # 5) 1 "later"%string 1])
    as (Hcaller & _ & _ & Hoff).
  - reflexivity.
  - intros p ->%list_elem_of_singleton. by vm_compute.
  - by vm_compute.
  - destruct Hoff as (Hlate & _); [by vm_compute|done|].
    split; [exact Hcaller|exact Hlate].
Defined.

Close Scope Q_scope.

End ShifterFacts.

(** ** The group-delay estimator *)

Module EstimatorFacts.
Import IR.

(** *** Selecting with a mask and selecting by bin number agree *)

Lemma select_bins (f : Q -> bool) (arr xs : list Q) (s : nat) :
  length arr = length xs ->
  select arr (map f xs) =
    map (fun k => nth (k - s) arr 0%Q)
      (List.filter (fun k => f (nth (k - s) xs 0%Q)) (seq s (length xs))).
Proof.
  revert xs s. induction arr as [|x arr IH]; intros [|d xs] s Hlen;
    try done.
  assert (forall k, In k (seq (S s) (length xs)) -> k - s = S (k - S s)) as Hk.
  { intros k [Hk _]%in_seq. lia. }
  assert (map (fun k => nth (k - s) (x :: arr) 0%Q)
            (List.filter (fun k => f (nth (k - s) (d :: xs) 0%Q))
               (seq (S s) (length xs)))
          = select arr (map f xs)) as Htail.
  { rewrite (IH xs (S s)) by (simpl in Hlen; lia).
    rewrite (filter_ext_in (fun k => f (nth (k - s) (d :: xs) 0%Q))
               (fun k => f (nth (k - S s) xs 0%Q))).
    - apply map_ext_in. intros k [Hin _]%filter_In. by rewrite (Hk k Hin).
    - intros k Hin. by rewrite (Hk k Hin). }
  cbn [select map length seq List.filter].
  rewrite Nat.sub_diag. change (nth 0 (d :: xs) 0%Q) with d.
  destruct (f d); cbn [map]; rewrite Htail; [|done].
  rewrite Nat.sub_diag. done.
Qed.

Lemma select_bins_0 (f : Q -> bool) (arr xs : list Q) :
  length arr = length xs ->
  select arr (map f xs) =
    map (fun k => nth k arr 0%Q)
      (List.filter (fun k => f (nth k xs 0%Q)) (seq 0 (length xs))).
Proof.
  intros Hlen. rewrite (select_bins f arr xs 0 Hlen).
  rewrite (filter_ext (fun k => f (nth (k - 0) xs 0%Q))
             (fun k => f (nth k xs 0%Q)))
    by (intros k; by rewrite Nat.sub_0_r).
  apply map_ext. intros k. by rewrite Nat.sub_0_r.
Qed.

Lemma np_median_nan (l : list Q) : np_median l = NaN <-> l = [].
Proof.
  destruct l as [|x l]; [done|]. unfold np_median.
  split; [|done]. by destruct (Nat.even _).
Qed.

Lemma np_median_fin (l : list Q) : l <> [] -> exists q, np_median l = Fin q.
Proof.
  destruct l as [|x l]; [done|]. intros _. unfold np_median.
  destruct (Nat.even _); eauto.
Qed.

(** *** The peak of the curve *)

Lemma fold_max_spec (rest : list Q) (x : Q) :
  let peak := fold_left (fun m v => if Qgtb v m then v else m) rest x in
  In peak (x :: rest) /\ (x <= peak)%Q
  /\ forall v, In v rest -> (v <= peak)%Q.
Proof.
  revert x. induction rest as [|y rest IH]; intros x; simpl.
  - split_and!; [by left|lra|done].
  - destruct (IH (if Qgtb y x then y else x)) as (Hin & Hle & Hall).
    destruct (Qgtb y x) eqn:Hyx.
    + apply Qgtb_true in Hyx. split_and!.
      * destruct Hin as [<-|Hin]; simpl; auto.
      * lra.
      * intros v [<-|Hv]; auto.
    + apply Qgtb_false in Hyx. split_and!.
      * destruct Hin as [<-|Hin]; simpl; auto.
      * done.
      * intros v [<-|Hv]; [lra|auto].
Qed.

Lemma py_max_spec (l : list Q) (peak : Q) :
  py_max l = Returns peak ->
  In peak l /\ forall v, In v l -> (v <= peak)%Q.
Proof.
  destruct l as [|x rest]; [done|]. intros [= <-].
  destruct (fold_max_spec rest x) as (Hin & Hle & Hall).
  split; [done|]. intros v [<-|Hv]; auto.
Qed.

(** With a rolloff value below zero the peak bin is above the threshold,
    so the passband is not empty; with a rolloff value of zero no bin is. *)
Lemma peak_bin_qualifies (dB : list Q) (r : Z) :
  dB <> [] -> (r < 0)%Z -> Spec.passband_bins dB r <> [].
Proof.
  intros Hne Hr. unfold Spec.passband_bins.
  destruct (py_max dB) as [peak|e] eqn:Hmax; [|by destruct dB].
  destruct (py_max_spec dB peak Hmax) as (Hin & _).
  destruct (In_nth dB peak 0%Q Hin) as (k & Hk & Hnth).
  intros Hnil.
  assert (In k (List.filter
                  (fun k => Qgtb (nth k dB 0%Q) (peak + inject_Z r)%Q)
                  (seq 0 (length dB)))) as Hkin; [|by rewrite Hnil in Hkin].
  apply filter_In. split; [apply in_seq; lia|].
  rewrite Hnth. apply Qgtb_true.
  assert (inject_Z r < 0)%Q; [|lra].
  change 0%Q with (inject_Z 0). by rewrite <- Zlt_Qlt.
Qed.

Lemma zero_rolloff_no_bin (dB : list Q) : Spec.passband_bins dB 0 = [].
Proof.
  unfold Spec.passband_bins.
  destruct (py_max dB) as [peak|e] eqn:Hmax; [|done].
  destruct (py_max_spec dB peak Hmax) as (_ & Hall).
  destruct (List.filter _ _) as [|k ks] eqn:Hf; [done|].
  assert (In k (k :: ks)) as Hk by (by left).
  rewrite <- Hf in Hk. apply filter_In in Hk as [Hseq Hgt].
  apply in_seq in Hseq. apply Qgtb_true in Hgt.
  assert (nth k dB 0 <= peak)%Q by (apply Hall, nth_In; lia).
  change (inject_Z 0) with 0%Q in Hgt. lra.
Qed.

Section Estimator.

Variable freqz_db : list Q -> Z -> list Q.
Variable group_delay : list Q -> Z -> list Q.

(** The estimator in terms of the specification's passband. *)
Lemma median_group_delay_passband y sr n_fft rolloff_value :
  let dB := freqz_db y n_fft in
  let gd := group_delay y n_fft in
  length gd = length dB ->
  dB <> [] ->
  median_group_delay freqz_db group_delay y sr n_fft rolloff_value =
    Returns (Spec.passband_median dB gd (Spec.sign_normalised rolloff_value) sr).
Proof.
  intros dB gd Hlen Hne. unfold median_group_delay, Spec.passband_median,
    Spec.passband_bins, Spec.sign_normalised. fold dB. fold gd.
  rewrite Z.gtb_ltb.
  destruct (py_max dB) as [peak|e] eqn:Hmax.
  - unfold bool_index. rewrite length_map, Hlen, Nat.eqb_refl.
    by rewrite (select_bins_0 _ gd dB Hlen).
  - by destruct dB.
Qed.

Lemma median_group_delay_not_estimation_error y sr n_fft rolloff_value :
  median_group_delay freqz_db group_delay y sr n_fft rolloff_value
    <> Raises EstimationError.
Proof.
  unfold median_group_delay.
  destruct (py_max _) as [peak|e] eqn:Hmax.
  - unfold bool_index. by destruct (Nat.eqb _ _).
  - destruct (freqz_db y n_fft); simpl in Hmax; by inversion Hmax.
Qed.

(** C9.  A positive rolloff value and its negation give the same estimate:
    the sign is normalised before anything is computed. *)
Theorem rolloff_sign_irrelevant y sr n_fft (v : Z) :
  (0 < v)%Z ->
  median_group_delay freqz_db group_delay y sr n_fft v =
  median_group_delay freqz_db group_delay y sr n_fft (- v).
Proof.
  intros Hv. unfold median_group_delay.
  assert ((v >? 0)%Z = true) as -> by lia.
  assert ((- v >? 0)%Z = false) as -> by lia.
  done.
Qed.

(** C10.  When at least one bin qualifies, the estimate is the median of
    the group-delay curve over exactly the bins whose dB magnitude is
    strictly above the peak plus the (sign-normalised) rolloff value,
    divided by the sampling rate. *)
Theorem estimate_is_passband_median y sr n_fft rolloff_value :
  let dB := freqz_db y n_fft in
  let gd := group_delay y n_fft in
  let r := Spec.sign_normalised rolloff_value in
  length gd = length dB ->
  Spec.passband_bins dB r <> [] ->
  median_group_delay freqz_db group_delay y sr n_fft rolloff_value =
    Returns (Spec.passband_median dB gd r sr).
Proof.
  intros dB gd r Hlen Hbins.
  assert (dB <> []) as Hne.
  { intros HdB. apply Hbins. unfold Spec.passband_bins. by rewrite HdB. }
  by apply median_group_delay_passband.
Qed.

(** C5, as the code has it.  The estimator never raises an estimation
    error.  With one entry per bin in both curves: when no bin of a
    non-empty curve is above the threshold it returns nan, numpy's median
    of an empty selection; when at least one bin is above the threshold it
    returns normally, with a number if the sampling rate is not zero. *)
Theorem no_qualifying_bin_gives_nan y sr n_fft rolloff_value :
  let dB := freqz_db y n_fft in
  let gd := group_delay y n_fft in
  let r := Spec.sign_normalised rolloff_value in
  let estimate :=
    median_group_delay freqz_db group_delay y sr n_fft rolloff_value in
  length gd = length dB ->
  estimate <> Raises EstimationError
  /\ (dB <> [] -> Spec.passband_bins dB r = [] -> estimate = Returns NaN)
  /\ (Spec.passband_bins dB r <> [] ->
        exists v, estimate = Returns v
          /\ (sr <> 0%Z -> exists q, v = Fin q)).
Proof.
  intros dB gd r estimate Hlen. split_and!.
  - apply median_group_delay_not_estimation_error.
  - intros Hne Hbins. subst estimate.
    rewrite median_group_delay_passband by done.
    unfold Spec.passband_median. fold dB. fold r. by rewrite Hbins.
  - intros Hbins.
    assert (dB <> []) as Hne.
    { intros HdB. apply Hbins. unfold Spec.passband_bins. by rewrite HdB. }
    subst estimate. rewrite median_group_delay_passband by done.
    eexists. split; [done|]. intros Hsr.
    unfold Spec.passband_median. fold dB. fold gd. fold r.
    destruct (np_median_fin
                (map (fun k => nth k gd 0%Q) (Spec.passband_bins dB r)))
      as [q ->]; [by destruct (Spec.passband_bins dB r)|].
    simpl. apply Z.eqb_neq in Hsr. rewrite Hsr. by eexists.
Qed.

End Estimator.

(** *** The estimator on concrete curves *)

Import Examples.

(** C5 fails as stated: with a rolloff value of zero no bin is above the
    threshold, yet the estimator returns (nan) instead of raising; and the
    flat curve of an all-zero impulse response, with the default rolloff
    value, has every bin above the threshold. *)
Lemma no_bin_returns_nan :
  Spec.passband_bins (silent_db [0; 0; 0; 0]%Q 4) 0 = []
  /\ median_group_delay silent_db flat_gd [0; 0; 0; 0]%Q 44100 4 0
     = Returns NaN
  /\ median_group_delay silent_db flat_gd [0; 0; 0; 0]%Q 44100 4 0
     <> Raises EstimationError
  /\ Spec.passband_bins (silent_db [0; 0; 0; 0]%Q 4) (-24) = [0; 1; 2; 3]
  /\ exists q,
       median_group_delay silent_db flat_gd [0; 0; 0; 0]%Q 44100 4 (-24)
         = Returns (Fin q).
Proof.
  split_and!; [by vm_compute..|]. eexists. by vm_compute.
Qed.

Lemma no_qualifying_bin_gives_nan_witness :
  median_group_delay silent_db flat_gd [0; 0; 0; 0]%Q 44100 4 0 = Returns NaN
  /\ exists v,
       median_group_delay silent_db flat_gd [0; 0; 0; 0]%Q 44100 4 (-24)
         = Returns v.
Proof.
  split.
  - apply (no_qualifying_bin_gives_nan silent_db flat_gd
             [0; 0; 0; 0]%Q 44100 4 0); by vm_compute.
  - destruct (no_qualifying_bin_gives_nan silent_db flat_gd
                [0; 0; 0; 0]%Q 44100 4 (-24)) as (_ & _ & Hret);
      [reflexivity|].
    destruct Hret as (v & Hv & _); [by vm_compute|].
    by exists v.
Defined.

Lemma rolloff_sign_irrelevant_witness :
  median_group_delay peaked_db signal_gd [5; 4; 3; 2; 1]%Q 2 5 24 =
  median_group_delay peaked_db signal_gd [5; 4; 3; 2; 1]%Q 2 5 (-24).
Proof.
  apply (rolloff_sign_irrelevant peaked_db signal_gd
           [5; 4; 3; 2; 1]%Q 2 5 24).
  lia.
Defined.

Lemma estimate_is_passband_median_witness :
  median_group_delay peaked_db signal_gd [5; 4; 3; 2; 1]%Q 2 5 24
    = Returns (Fin (3 / inject_Z 2)).
Proof.
  rewrite (estimate_is_passband_median peaked_db signal_gd
             [5; 4; 3; 2; 1]%Q 2 5 24).
  - reflexivity.
  - reflexivity.
  - by vm_compute.
Defined.

End EstimatorFacts.

(** ** The transformer and its audio hook *)

Module PipelineFacts.
Import IR.

Lemma length_audio_pad (y y_ir : list Q) :
  length (audio_pad y y_ir) = Nat.max (length y) (length y_ir).
Proof.
  unfold audio_pad, fix_length.
  destruct (Nat.ltb_spec (length y) (length y_ir)) as [Hlt|Hge]; [|lia].
  destruct (Nat.ltb_spec (length y_ir) (length y)); [lia|].
  rewrite length_app, length_replicate. lia.
Qed.

Lemma audio_pad_short (y y_ir : list Q) :
  length y < length y_ir ->
  audio_pad y y_ir = y ++ replicate (length y_ir - length y) 0%Q.
Proof.
  intros Hlt. unfold audio_pad, fix_length.
  destruct (Nat.ltb_spec (length y) (length y_ir)); [|lia].
  by destruct (Nat.ltb_spec (length y_ir) (length y)); [lia|].
Qed.

Lemma audio_pad_long (y y_ir : list Q) :
  length y_ir <= length y -> audio_pad y y_ir = y.
Proof.
  intros Hge. unfold audio_pad.
  by destruct (Nat.ltb_spec (length y) (length y_ir)); [lia|].
Qed.

(** Same-mode convolution of two non-empty arrays has the size of the
    first; with an empty array on either side it is empty. *)
Lemma length_fftconvolve_same (in1 in2 : list Q) :
  in1 <> [] -> in2 <> [] ->
  length (Scipy.fftconvolve_same in1 in2) = length in1.
Proof.
  intros H1 H2. destruct in1 as [|x in1]; [done|].
  destruct in2 as [|z in2]; [done|].
  unfold Scipy.fftconvolve_same, Scipy.centered, Scipy.convolve_full.
  rewrite length_take, length_drop, length_map, length_seq.
  set (n := length (x :: in1)). set (m := length (z :: in2)).
  assert (0 < m) by (subst m; simpl; lia).
  assert ((n + m - 1 - n) / 2 <= m - 1)
    by (apply Nat.Div0.div_le_upper_bound; lia).
  lia.
Qed.

Lemma fftconvolve_same_empty_r (in1 : list Q) :
  Scipy.fftconvolve_same in1 [] = [].
Proof. by destruct in1. Qed.

Section Pipeline.

Variable freqz_db : list Q -> Z -> list Q.
Variable group_delay : list Q -> Z -> list Q.
Variable load : string -> Z -> outcome (list Q * Z).

(** C6, as the code has it.  The constructor checks nothing: whatever the
    list of sources and the transform size, it returns a transformer that
    stores them as given (a single path becomes a one-element list).  With
    an empty list of sources the state generator yields nothing and loads
    nothing. *)
Theorem constructor_accepts_everything files n r dispatch jam :
  IRConvolution_init files n r =
    Returns (mkIRConvolution
               (match files with OnePath s => [s] | Paths l => l end)
               n r [(".*", "deform_times")]%string)
  /\ states freqz_db group_delay load (mkIRConvolution [] n r dispatch) jam
     = ([], [], Returns tt).
Proof. done. Qed.

(** C8, as the code has it.  A buffer shorter than the impulse response is
    extended with zeros to exactly the length of the impulse response
    before it is convolved, and a buffer at least as long is left as it
    is.  For a non-empty impulse response the buffer that the hook leaves
    behind has the length of the buffer that went into the convolution,
    the larger of the two lengths; for an empty impulse response the
    convolution returns an empty array and the buffer is left empty. *)
Theorem audio_zero_extends {F : Type} mudabox (state : State F) y_ir sr_ir :
  let y := audio_y mudabox in
  let padded := audio_pad y y_ir in
  load (filename state) (audio_sr mudabox) = Returns (y_ir, sr_ir) ->
  (length y < length y_ir ->
     padded = y ++ replicate (length y_ir - length y) 0%Q
     /\ length padded = length y_ir)
  /\ (length y_ir <= length y -> padded = y)
  /\ exists out,
       audio load Scipy.fftconvolve_same mudabox state = Returns out
       /\ audio_y out = Scipy.fftconvolve_same padded y_ir
       /\ audio_sr out = audio_sr mudabox
       /\ (y_ir <> [] ->
             length (audio_y out) = length padded
             /\ length (audio_y out) = Nat.max (length y) (length y_ir))
       /\ (y_ir = [] -> audio_y out = []).
Proof.
  intros y padded Hload. split_and!.
  - intros Hlt. subst padded. rewrite audio_pad_short by done.
    split; [done|]. rewrite length_app, length_replicate. lia.
  - apply audio_pad_long.
  - unfold audio. rewrite Hload. eexists. split_and!; [done..| |].
    + intros Hne. simpl. fold y. fold padded.
      assert (padded <> []) as Hpad.
      { intros Hnil. pose proof (length_audio_pad y y_ir) as Hlen.
        fold padded in Hlen. rewrite Hnil in Hlen.
        destruct y_ir; [done|]. simpl in Hlen. lia. }
      rewrite length_fftconvolve_same by done.
      split; [done|]. apply length_audio_pad.
    + intros ->. simpl. apply fftconvolve_same_empty_r.
Qed.

End Pipeline.

Import Examples.

(** C6 fails as stated: an empty list of sources and a transform size of
    zero are both accepted. *)
Lemma empty_sources_accepted :
  IRConvolution_init (Paths []) 2048 (-24) <> Raises ConfigurationError
  /\ IRConvolution_init (OnePath "ir.wav") 0 (-24)
     <> Raises ConfigurationError.
Proof. done. Qed.


(** C8 fails as stated: with an impulse response that has no samples a
    buffer of two samples, at least as long as the impulse response, does
    not keep its length; it is left empty. *)
Lemma empty_response_empties_buffer :
  audio Scipy.empty_file Scipy.fftconvolve_same (mkAudio [1; 1]%Q 2)
    (mkState "silence.wav" 0%Q) = Returns (mkAudio [] 2)
  /\ length (audio_y (mkAudio [] 2)) <> length [1; 1]%Q.
Proof. split; [reflexivity|simpl; lia]. Qed.

Lemma audio_zero_extends_witness :
  exists out,
    audio one_file Scipy.fftconvolve_same (mkAudio [1; 1]%Q 2)
      (mkState "ir.wav" 0%Q) = Returns out
    /\ length (audio_y out) = 4.
Proof.
  destruct (audio_zero_extends one_file
              (mkAudio [1; 1]%Q 2) (mkState "ir.wav" 0%Q) [1; 2; 3; 4]%Q 2)
    as (_ & _ & out & Hout & _ & _ & Hlen & _).
  - reflexivity.
  - exists out. split; [exact Hout|].
    destruct Hlen as [_ ->]; [done|]. reflexivity.
Defined.

End PipelineFacts.

(** * Further properties of the code *)

(** ** The annotation shifter, as a whole *)

Module ShifterMore.
Import Jams IR Relations StoreFacts ShifterFacts.

Lemma Qplus_0_r_eq (q : Q) : (q + 0)%Q = q.
Proof.
  destruct q as [n d]. unfold Qplus; simpl.
  by rewrite Z.mul_1_r, Z.add_0_r, Pos.mul_1_r.
Qed.

Section DeformTimes.

Context {V C : Type}.
Variable slice : Annotation V C -> Q -> Q -> Annotation V C.
Implicit Types (h : heap V C) (a l : loc) (o : Observation V C).
Implicit Types (fr : frame) (g D : Q).

(** While [annotation] names the caller's object, and after it has left it,
    no other object that was in the store is touched, and the store only
    grows. *)
Lemma deform_loop_frame a g (os : list (Observation V C)) fr h out h' :
  annotation fr = a -> a < length h ->
  deform_loop slice g os fr h = (out, h') ->
  length h <= length h'
  /\ forall l, l < length h -> l <> a -> read h' l = read h l.
Proof.
  revert fr h. induction os as [|o os IH]; intros fr h Hfr Ha; simpl.
  { by intros [= <- <-]. }
  destruct (Qgtb (time o + g) (ann_duration (read h (annotation fr)))) eqn:HD.
  - rewrite deform_step_dropped by done.
    destruct (Qle_bool _ _); [by intros [= <- <-]|].
    destruct (deformed_duration fr) as [dd|].
    + intros Hloop.
      apply (deform_loop_away slice (length h)) in Hloop
        as (Hold & Hlen & _); simpl.
      * rewrite length_append, length_app in Hlen. simpl in Hlen.
        split; [lia|]. intros l Hl Hne.
        by rewrite Hold, read_append_ne, read_alloc_old by lia.
      * done.
      * rewrite length_append, length_app. simpl. lia.
    + intros [= <- <-]. rewrite length_app. simpl. split; [lia|].
      intros l Hl Hne. by rewrite read_alloc_old.
  - rewrite deform_step_kept by done. intros Hloop.
    apply IH in Hloop as (Hlen & Hold); [|done|by rewrite length_append].
    rewrite length_append in Hlen, Hold. split; [done|].
    intros l Hl Hne. rewrite Hold by done. apply read_append_ne. congruence.
Qed.

(** When nothing is dropped the loop rewrites the caller's object and
    nothing else. *)
Lemma deform_loop_no_drop a g (os : list (Observation V C)) fr h :
  annotation fr = a -> a < length h ->
  let D := ann_duration (read h a) in
  (forall p, p ∈ os -> (time p + g <= D)%Q) ->
  exists fr',
    deform_loop slice g os fr h =
      (Returns fr',
       write a (mkAnn D (data (read h a) ++ (shifted g D <$> os))) h).
Proof.
  revert fr h. induction os as [|o os IH]; intros fr h Hfr Ha D Hos; simpl.
  { exists fr. rewrite app_nil_r. f_equal. unfold write.
    symmetry. apply list_insert_id. unfold read in *.
    destruct (h !! a) as [[d l]|] eqn:Hl; [done|].
    apply lookup_ge_None in Hl. lia. }
  rewrite deform_step_kept by (rewrite Hfr; apply Qgtb_false, Hos; by left).
  rewrite Hfr. fold D.
  edestruct (IH (mkFrame a (Some (duration (shifted g D o))))
               (append a (shifted g D o) h) eq_refl) as (fr' & ->).
  { by rewrite length_append. }
  { intros p Hp. rewrite ann_duration_append. apply Hos. by right. }
  exists fr'. rewrite ann_duration_append, read_append_eq by done.
  fold D. simpl. rewrite <- app_assoc. simpl.
  unfold append, write. by rewrite list_insert_insert_eq.
Qed.

Lemma take_kept_through g D (pre post : list (Observation V C)) o :
  (forall p, p ∈ pre -> (time p + g <= D)%Q) ->
  (time o + g <= D)%Q ->
  take_kept g D (pre ++ o :: post) = pre ++ o :: take_kept g D post.
Proof.
  intros Hpre Ho. induction pre as [|p pre IH]; simpl.
  - apply Qgtb_false in Ho. by rewrite Ho.
  - assert (Qgtb (time p + g) D = false) as ->.
    { apply Qgtb_false, Hpre. by left. }
    f_equal. apply IH. intros q Hq. apply Hpre. by right.
Qed.

Lemma shifted_zero D o :
  (time o + duration o <= D)%Q -> shifted 0 D o = o.
Proof.
  intros Hfit. unfold shifted. rewrite !Qplus_0_r_eq.
  apply Qgtb_false in Hfit. rewrite Hfit. by destruct o.
Qed.

Lemma shifted_twice g1 g2 D o :
  (0 <= g2)%Q ->
  obs_equiv (shifted g2 D (shifted g1 D o)) (shifted (g1 + g2) D o).
Proof.
  intros Hg2. unfold obs_equiv, shifted; simpl.
  split_and!; [lra| |done..].
  destruct (Qgtb (time o + duration o + g1) D) eqn:H1;
    [apply Qgtb_true in H1|apply Qgtb_false in H1];
    destruct (Qgtb (time o + duration o + (g1 + g2)) D) eqn:H12;
    [apply Qgtb_true in H12|apply Qgtb_false in H12
    |apply Qgtb_true in H12|apply Qgtb_false in H12];
    match goal with |- ((if ?b then _ else _) == _)%Q =>
      destruct b eqn:H2;
      [apply Qgtb_true in H2|apply Qgtb_false in H2] end;
    lra.
Qed.

Lemma fmap_fixed {A : Type} (f : A -> A) (l : list A) :
  (forall x, x ∈ l -> f x = x) -> f <$> l = l.
Proof.
  induction l as [|x l IH]; intros Hf; simpl; [done|].
  rewrite Hf by (by left). f_equal. apply IH. intros y Hy. apply Hf. by right.
Qed.

Lemma write_same a h : a < length h -> write a (read h a) h = h.
Proof.
  intros Ha. unfold write, read. apply list_insert_id.
  destruct (h !! a) eqn:Hl; [done|]. apply lookup_ge_None in Hl. lia.
Qed.

Lemma deform_times_no_drop_store a (state : State Q) h :
  let g := ir_groupdelay state in
  let D := ann_duration (read h a) in
  a < length h ->
  (forall p, p ∈ data (read h a) -> (time p + g <= D)%Q) ->
  deform_times slice a state h =
    (Returns tt, write a (mkAnn D (shifted g D <$> data (read h a))) h).
Proof.
  intros g D Ha Hall. unfold deform_times, pop_data. fold g. fold D.
  set (h0 := write a (mkAnn D []) h).
  assert (read h0 a = mkAnn D []) as Hread0
    by (subst h0; by rewrite read_write_eq).
  destruct (deform_loop_no_drop a g (data (read h a)) (mkFrame a None) h0
              eq_refl) as (fr' & ->).
  { subst h0. by rewrite length_write. }
  { intros p Hp. rewrite Hread0. by apply Hall. }
  rewrite Hread0. simpl. subst h0. unfold write.
  by rewrite list_insert_insert_eq.
Qed.

(** *** Properties of [deform_times] *)

(** X1.  Whether the call returns or raises, the caller's annotation ends
    up with the shifted versions of the observations drained before the
    first one whose shifted onset lies beyond the duration, in their
    drained order, and with nothing else; its duration is unchanged. *)
Theorem caller_keeps_shifted_prefix a (state : State Q) h :
  let g := ir_groupdelay state in
  let D := ann_duration (read h a) in
  a < length h ->
  read (deform_times slice a state h).2 a =
    mkAnn D (shifted g D <$> take_kept g D (data (read h a))).
Proof. intros g D Ha. by apply deform_times_caller. Qed.

(** X2.  The call raises the unbound-local error exactly when the first
    drained observation has a shifted onset beyond a positive duration.
    It raises nothing but that error and the [ParameterError] of the
    slice; it returns whenever no drained observation has a shifted onset
    beyond the duration; and when the duration is not positive, any
    drained observation with a shifted onset beyond it makes the call
    raise [ParameterError]. *)
Theorem raises_only_on_first_drop a (state : State Q) h :
  let g := ir_groupdelay state in
  let D := ann_duration (read h a) in
  let r := (deform_times slice a state h).1 in
  (r = Raises UnboundLocalError <->
     exists o rest,
       data (read h a) = o :: rest /\ (D < time o + g)%Q /\ (0 < D)%Q)
  /\ (r = Returns tt \/ r = Raises UnboundLocalError
      \/ r = Raises ParameterError)
  /\ ((forall p, p ∈ data (read h a) -> (time p + g <= D)%Q) ->
        r = Returns tt)
  /\ ((D <= 0)%Q ->
        (exists p, p ∈ data (read h a) /\ (D < time p + g)%Q) ->
        r = Raises ParameterError).
Proof.
  intros g D r.
  assert ((forall p, p ∈ data (read h a) -> (time p + g <= D)%Q) ->
          r = Returns tt) as Hnodrop.
  { intros Hall. destruct (decide (a < length h)) as [Ha|Hge].
    - by apply deform_times_no_drop.
    - subst r. unfold deform_times, pop_data.
      by rewrite read_beyond by lia. }
  split_and!; [| |done|].
  - destruct (data (read h a)) as [|o rest] eqn:Hdata.
    { split; [|by intros (? & ? & ? & _)].
      rewrite Hnodrop; [done|]. by intros p Hp%elem_of_nil. }
    destruct (Qgtb (time o + g) D) eqn:HD.
    + apply Qgtb_true in HD. subst r.
      rewrite (deform_times_first_drop slice a state h o rest) by done.
      fold D. destruct (Qle_bool D 0) eqn:Hsign.
      * apply Qle_bool_iff in Hsign. split; [done|].
        intros (? & ? & _ & _ & Hpos). lra.
      * apply Qle_bool_false in Hsign. split; [|done].
        intros _. by exists o, rest.
    + apply Qgtb_false in HD. split.
      * intros Hr.
        destruct (deform_times_first_kept slice a state h o rest Hdata HD)
          as [Hk|Hk]; subst r; congruence.
      * intros (o1 & rest1 & [= <- <-] & Hlt & _). lra.
  - destruct (data (read h a)) as [|o rest] eqn:Hdata.
    { left. apply Hnodrop. by intros p Hp%elem_of_nil. }
    destruct (Qgtb (time o + g) D) eqn:HD.
    + apply Qgtb_true in HD. subst r.
      rewrite (deform_times_first_drop slice a state h o rest) by done.
      destruct (Qle_bool _ _); auto.
    + apply Qgtb_false in HD.
      destruct (deform_times_first_kept slice a state h o rest Hdata HD);
        auto.
  - intros Hnp (p & Hp & Hdrop).
    destruct (first_dropped g D _ p Hp Hdrop)
      as (pre & o & post & Hdata & Hpre & Ho).
    subst r. by eapply deform_times_drop_nonpos.
Qed.

(** X3.  The call never changes an annotation object other than the one
    it is given: every other object that was in the store reads as before,
    and the store only grows (by the sliced copies). *)
Theorem other_annotations_untouched a (state : State Q) h l :
  a < length h -> l < length h -> l <> a ->
  read (deform_times slice a state h).2 l = read h l
  /\ length h <= length (deform_times slice a state h).2.
Proof.
  intros Ha Hl Hne. unfold deform_times, pop_data.
  destruct (deform_loop slice (ir_groupdelay state) (data (read h a))
              (mkFrame a None)
              (write a (mkAnn (ann_duration (read h a)) []) h))
    as [out h'] eqn:Hloop.
  apply (deform_loop_frame a) in Hloop as (Hlen & Hold);
    [|done|by rewrite length_write].
  rewrite length_write in Hlen, Hold.
  assert (read h' l = read h l) as Hread.
  { rewrite Hold by done. apply read_write_ne. congruence. }
  by destruct out.
Qed.

(** X4.  When no drained observation has a shifted onset beyond the
    duration, the call returns, makes no copy, and its whole effect on the
    store is to replace the observations of the caller's annotation by
    their shifted versions, one for one and in order. *)
Theorem no_drop_rewrites_in_place a (state : State Q) h :
  let g := ir_groupdelay state in
  let D := ann_duration (read h a) in
  a < length h ->
  (forall p, p ∈ data (read h a) -> (time p + g <= D)%Q) ->
  deform_times slice a state h =
    (Returns tt, write a (mkAnn D (shifted g D <$> data (read h a))) h).
Proof. apply deform_times_no_drop_store. Qed.

(** X5.  The shifter never lengthens an observation and never makes a
    non-negative duration negative: every observation of the caller's
    annotation afterwards comes from a drained observation whose duration
    is at least as large, and its own duration is non-negative if the
    source's was. *)
Theorem durations_never_grow a (state : State Q) h o' :
  let g := ir_groupdelay state in
  a < length h ->
  o' ∈ data (read (deform_times slice a state h).2 a) ->
  exists o, o ∈ data (read h a)
    /\ time o' = (time o + g)%Q
    /\ (duration o' <= duration o)%Q
    /\ ((0 <= duration o)%Q -> (0 <= duration o')%Q).
Proof.
  intros g Ha. rewrite deform_times_caller by done. fold g. simpl.
  intros (o & -> & [Ho Hkept]%take_kept_elem)%list_elem_of_fmap.
  exists o. unfold shifted; simpl. split_and!; [done..| |].
  - destruct (Qgtb _ _) eqn:HD; [apply Qgtb_true in HD|]; lra.
  - intros Hd. destruct (Qgtb _ _) eqn:HD; lra.
Qed.

(** X6.  The boundary is inclusive: an observation whose shifted onset is
    exactly the duration, drained before any dropped one, is kept, and a
    non-negative duration becomes zero. *)
Theorem onset_on_boundary_kept a (state : State Q) h pre o post :
  let g := ir_groupdelay state in
  let D := ann_duration (read h a) in
  data (read h a) = pre ++ o :: post ->
  (forall p, p ∈ pre -> (time p + g <= D)%Q) ->
  (time o + g == D)%Q ->
  (0 <= duration o)%Q ->
  exists o', o' ∈ data (read (deform_times slice a state h).2 a)
    /\ time o' = (time o + g)%Q /\ (duration o' == 0)%Q
    /\ value o' = value o /\ confidence o' = confidence o.
Proof.
  intros g D Hdata Hpre Ho Hd.
  assert (a < length h) as Ha.
  { destruct (decide (a < length h)) as [|Hge]; [done|].
    rewrite read_beyond in Hdata by lia. by destruct pre. }
  rewrite deform_times_caller by done. fold g. fold D.
  rewrite Hdata, take_kept_through by (done || lra). simpl.
  exists (shifted g D o). split_and!; [|done| |done..].
  - rewrite fmap_app, elem_of_app. right. simpl. by left.
  - unfold shifted; simpl.
    destruct (Qgtb _ _) eqn:HD; [|apply Qgtb_false in HD]; lra.
Qed.

(** X7.  With a delay of zero, an annotation whose observations all start
    and end within its duration is left exactly as it was, and so is the
    whole store. *)
Theorem zero_delay_is_identity a (state : State Q) h :
  let D := ann_duration (read h a) in
  a < length h ->
  ir_groupdelay state = 0%Q ->
  (forall o, o ∈ data (read h a) ->
     (time o <= D)%Q /\ (time o + duration o <= D)%Q) ->
  deform_times slice a state h = (Returns tt, h).
Proof.
  intros D Ha Hzero Hfit.
  rewrite deform_times_no_drop_store; [|done|].
  - rewrite Hzero. fold D. rewrite fmap_fixed.
    + f_equal.
      replace (mkAnn D (data (read h a))) with (read h a)
        by (subst D; by destruct (read h a)).
      by apply write_same.
    + intros o Ho. apply shifted_zero. by apply Hfit.
  - intros p Hp. rewrite Hzero, Qplus_0_r_eq. by apply Hfit.
Qed.

(** X16.  The unbound-local error is not undone: when the call raises
    it, the caller's annotation is left with no observation at all (they
    were drained and none was put back), its duration unchanged. *)
Theorem raise_leaves_caller_empty a (state : State Q) h :
  a < length h ->
  (deform_times slice a state h).1 = Raises UnboundLocalError ->
  read (deform_times slice a state h).2 a
    = mkAnn (ann_duration (read h a)) [].
Proof.
  intros Ha Hr. rewrite deform_times_caller by done.
  destruct (data (read h a)) as [|o rest] eqn:Hdata; [done|]. simpl.
  destruct (Qgtb _ _) eqn:HD; [done|]. apply Qgtb_false in HD.
  destruct (deform_times_first_kept slice a state h o rest Hdata HD);
    congruence.
Qed.

Lemma shifted_follows_rule g D (os : list (Observation V C)) :
  Forall2 obs_equiv (shifted g D <$> List.filter (kept g D) os)
    (concat (map (Spec.shift_observation g D) os)).
Proof.
  induction os as [|o os IH]; simpl; [constructor|].
  unfold kept at 1, Spec.shift_observation at 1.
  destruct (Qgtb (time o + g) D); simpl; [done|].
  constructor; [|done].
  split_and!; [done|apply shifted_duration_min|done..].
Qed.

(** X19.  For an annotation whose observations are in time order, what the
    call leaves in the caller's annotation is, observation for observation
    and as numbers, what the rule "drop beyond the duration, else shift and
    cut at the duration" gives for the drained observations, whether the
    call returns or raises. *)
Theorem caller_follows_rule a (state : State Q) h :
  let g := ir_groupdelay state in
  let after := read (deform_times slice a state h).2 a in
  a < length h ->
  time_ordered (data (read h a)) ->
  ann_duration after = ann_duration (Spec.shift_annotation g (read h a))
  /\ Forall2 obs_equiv (data after)
       (data (Spec.shift_annotation g (read h a))).
Proof.
  intros g after Ha Hord. subst after.
  rewrite deform_times_caller by done. fold g. simpl.
  split; [done|]. rewrite take_kept_filter by done.
  apply shifted_follows_rule.
Qed.

(** X8.  Shifting twice composes: when the second delay is not negative
    and no observation leaves the track under the two delays together,
    shifting by the first delay and then by the second returns and gives
    the same observations, as numbers, as shifting once by their sum. *)
Theorem two_shifts_compose a (s1 s2 s12 : State Q) h :
  let g1 := ir_groupdelay s1 in
  let g2 := ir_groupdelay s2 in
  let D := ann_duration (read h a) in
  let h1 := (deform_times slice a s1 h).2 in
  let twice := deform_times slice a s2 h1 in
  let once := deform_times slice a s12 h in
  a < length h ->
  ir_groupdelay s12 = (g1 + g2)%Q ->
  (0 <= g2)%Q ->
  (forall p, p ∈ data (read h a) -> (time p + (g1 + g2) <= D)%Q) ->
  twice.1 = Returns tt /\ once.1 = Returns tt
  /\ Forall2 obs_equiv (data (read twice.2 a)) (data (read once.2 a)).
Proof.
  intros g1 g2 D h1 twice once Ha H12 Hg2 Hfit.
  assert (once = (Returns tt,
            write a (mkAnn D (shifted (g1 + g2) D <$> data (read h a))) h))
    as ->.
  { subst once. rewrite deform_times_no_drop_store; rewrite ?H12; done. }
  assert (h1 = write a (mkAnn D (shifted g1 D <$> data (read h a))) h)
    as Hh1.
  { subst h1. rewrite deform_times_no_drop_store; [done..|].
    intros p Hp. specialize (Hfit p Hp). fold g1. fold D. lra. }
  assert (read h1 a = mkAnn D (shifted g1 D <$> data (read h a))) as Hread1
    by (rewrite Hh1; by apply read_write_eq).
  assert (twice = (Returns tt,
            write a (mkAnn D (shifted g2 D
                                <$> (shifted g1 D <$> data (read h a)))) h1))
    as ->.
  { subst twice. rewrite deform_times_no_drop_store; rewrite ?Hread1.
    - done.
    - rewrite Hh1, length_write. done.
    - simpl. fold g2.
      intros p' (p & -> & Hp)%list_elem_of_fmap. specialize (Hfit p Hp).
      simpl. lra. }
  simpl. split_and!; [done..|].
  rewrite !read_write_eq by (rewrite ?Hh1, ?length_write; done). simpl.
  rewrite <- list_fmap_compose. apply Forall2_fmap, Forall_Forall2_diag.
  apply Forall_forall. intros o _. by apply shifted_twice.
Qed.

End DeformTimes.

(** *** Concrete runs *)

Open Scope Q_scope.

Lemma caller_keeps_shifted_prefix_witness :
  let early := mkObs 1 2 "early"%string 1 in
  let late := mkObs (19 # 2) 1 "late"%string 1 in
  let later := mkObs (49 # 5) 1 "later"%string 1 in
  read (deform_times clip_slice 0%nat (mkState "ir.wav" 1)
          [mkAnn 10 [early; late; later]]).2 0%nat
    = mkAnn 10 [mkObs 2 2 "early"%string 1].
Proof.
  cbv zeta. rewrite (caller_keeps_shifted_prefix clip_slice 0%nat).
  - reflexivity.
  - simpl. lia.
Defined.

Lemma other_annotations_untouched_witness :
  let mine := mkAnn 10 [mkObs (19 # 2) 1 "late"%string 1] in
  let other := mkAnn 5 [mkObs 1 1 "other"%string 1] in
  read (deform_times clip_slice 0%nat (mkState "ir.wav" 1)
          [mine; other]).2 1%nat = other.
Proof.
  apply (other_annotations_untouched clip_slice 0%nat (mkState "ir.wav" 1)
           [mkAnn 10 [mkObs (19 # 2) 1 "late"%string 1];
            mkAnn 5 [mkObs 1 1 "other"%string 1]] 1%nat);
    simpl; lia.
Defined.

Lemma no_drop_rewrites_in_place_witness :
  deform_times clip_slice 0%nat (mkState "ir.wav" (3 # 10))
    [mkAnn 10 [mkObs (19 # 2) 1 "a"%string 1]]
  = (Returns tt, [mkAnn 10 [mkObs (196 # 20) (4 # 20) "a"%string 1]]).
Proof.
  rewrite (no_drop_rewrites_in_place clip_slice 0%nat).
  - reflexivity.
  - simpl. lia.
  - intros p ->%list_elem_of_singleton. by vm_compute.
Defined.

Lemma durations_never_grow_witness :
  exists o, o ∈ [mkObs (19 # 2) 1 "a"%string 1]
    /\ 4 # 20 <= duration o.
Proof.
  destruct (durations_never_grow clip_slice 0%nat
              (mkState "ir.wav" (3 # 10))
              [mkAnn 10 [mkObs (19 # 2) 1 "a"%string 1]]
              (mkObs (196 # 20) (4 # 20) "a"%string 1))
    as (o & Ho & _ & Hle & _).
  - simpl. lia.
  - vm_compute. apply list_elem_of_here.
  - exists o. split; [exact Ho|exact Hle].
Defined.

Lemma onset_on_boundary_kept_witness :
  let r := deform_times clip_slice 0%nat (mkState "ir.wav" 1)
             [mkAnn 10 [mkObs 9 2 "edge"%string 1]] in
  exists o', o' ∈ data (read r.2 0%nat)
    /\ time o' = 9 + 1 /\ duration o' == 0.
Proof.
  destruct (onset_on_boundary_kept clip_slice 0%nat (mkState "ir.wav" 1)
              [mkAnn 10 [mkObs 9 2 "edge"%string 1]]
              [] (mkObs 9 2 "edge"%string 1) [])
    as (o' & Ho' & Htime & Hdur & _).
  - reflexivity.
  - intros p Hp. by apply elem_of_nil in Hp.
  - by vm_compute.
  - by vm_compute.
  - exists o'. split_and!; [exact Ho'|exact Htime|exact Hdur].
Defined.

Lemma zero_delay_is_identity_witness :
  let h := [mkAnn 10 [mkObs 1 2 "a"%string 1; mkObs 8 2 "b"%string 1]] in
  deform_times clip_slice 0%nat (mkState "ir.wav" 0) h = (Returns tt, h).
Proof.
  apply (zero_delay_is_identity clip_slice 0%nat (mkState "ir.wav" 0)
           [mkAnn 10 [mkObs 1 2 "a"%string 1; mkObs 8 2 "b"%string 1]]).
  - simpl. lia.
  - reflexivity.
  - intros o [->|[->|Ho]%elem_of_cons]%elem_of_cons.
    + by vm_compute.
    + by vm_compute.
    + by apply elem_of_nil in Ho.
Defined.

Lemma raise_leaves_caller_empty_witness :
  read (deform_times clip_slice 0%nat (mkState "ir.wav" 1)
          [mkAnn 10 [mkObs (19 # 2) 1 "late"%string 1;
                     mkObs (49 # 5) 1 "later"%string 1]]).2 0%nat
    = mkAnn 10 [].
Proof.
  apply (raise_leaves_caller_empty clip_slice 0%nat (mkState "ir.wav" 1)
           [mkAnn 10 [mkObs (19 # 2) 1 "late"%string 1;
                      mkObs (49 # 5) 1 "later"%string 1]]).
  - simpl. lia.
  - reflexivity.
Defined.

Lemma caller_follows_rule_witness :
  let track := mkAnn 10 [mkObs 1 2 "early"%string 1;
                         mkObs (19 # 2) 1 "late"%string 1] in
  Forall2 obs_equiv
    (data (read (deform_times clip_slice 0%nat (mkState "ir.wav" 1)
                   [track]).2 0%nat))
    (data (Spec.shift_annotation 1 track)).
Proof.
  apply (caller_follows_rule clip_slice 0%nat (mkState "ir.wav" 1)
           [mkAnn 10 [mkObs 1 2 "early"%string 1;
                      mkObs (19 # 2) 1 "late"%string 1]]).
  - simpl. lia.
  - simpl. split_and!; try done; intros p Hp;
      repeat (apply elem_of_cons in Hp as [->|Hp]; [by vm_compute|]);
      by apply elem_of_nil in Hp.
Defined.

Lemma two_shifts_compose_witness :
  let h := [mkAnn 10 [mkObs 1 2 "a"%string 1; mkObs 5 4 "b"%string 1]] in
  let h1 := (deform_times clip_slice 0%nat (mkState "ir.wav" 1) h).2 in
  Forall2 obs_equiv
    (data (read (deform_times clip_slice 0%nat (mkState "ir.wav" 2) h1).2
             0%nat))
    (data (read (deform_times clip_slice 0%nat (mkState "ir.wav" 3) h).2
             0%nat)).
Proof.
  apply (two_shifts_compose clip_slice 0%nat (mkState "ir.wav" 1)
           (mkState "ir.wav" 2) (mkState "ir.wav" 3)
           [mkAnn 10 [mkObs 1 2 "a"%string 1; mkObs 5 4 "b"%string 1]]).
  - simpl. lia.
  - reflexivity.
  - by vm_compute.
  - intros o [->|[->|Ho]%elem_of_cons]%elem_of_cons.
    + by vm_compute.
    + by vm_compute.
    + by apply elem_of_nil in Ho.
Defined.

Close Scope Q_scope.

End ShifterMore.

(** ** The group-delay estimator: errors, nan and range *)

Module EstimatorMore.
Import IR EstimatorFacts.

(** *** The median *)

Lemma In_insert_sorted (x y : Q) (l : list Q) :
  In y (insert_sorted x l) <-> y = x \/ In y l.
Proof.
  induction l as [|z l IH]; simpl; [intuition congruence|].
  destruct (Qle_bool x z); simpl; [intuition congruence|].
  rewrite IH. intuition congruence.
Qed.

Lemma length_insert_sorted (x : Q) (l : list Q) :
  length (insert_sorted x l) = S (length l).
Proof.
  induction l as [|z l IH]; simpl; [done|].
  destruct (Qle_bool x z); simpl; by rewrite ?IH.
Qed.

Lemma In_sort (y : Q) (l : list Q) : In y (sort l) <-> In y l.
Proof.
  unfold sort. induction l as [|x l IH]; simpl; [done|].
  rewrite In_insert_sorted, IH. intuition congruence.
Qed.

Lemma length_sort (l : list Q) : length (sort l) = length l.
Proof.
  unfold sort. induction l as [|x l IH]; simpl; [done|].
  by rewrite length_insert_sorted, IH.
Qed.

Lemma select_In (x : Q) (arr : list Q) (mask : list bool) :
  In x (select arr mask) -> In x arr.
Proof.
  revert mask. induction arr as [|z arr IH]; intros [|b mask]; simpl;
    try done.
  destruct b; simpl; intros Hx; [destruct Hx|]; eauto.
Qed.

(** The median of a list lies between any two bounds of its entries. *)
Lemma np_median_bounds (l : list Q) (lo hi q : Q) :
  (forall x, In x l -> (lo <= x <= hi)%Q) ->
  np_median l = Fin q -> (lo <= q <= hi)%Q.
Proof.
  intros Hl. destruct l as [|x0 l0] eqn:El; [done|]. rewrite <- El in *.
  assert (0 < length (sort l)) as Hpos
    by (rewrite length_sort, El; simpl; lia).
  assert (forall i, i < length (sort l) ->
            (lo <= nth i (sort l) 0 <= hi)%Q) as Hnth.
  { intros i Hi. apply Hl, In_sort, nth_In, Hi. }
  pose proof (Nat.div_lt (length (sort l)) 2 Hpos ltac:(lia)) as Hhalf.
  destruct (Hnth (length (sort l) / 2 - 1) ltac:(lia)) as [Hlo1 Hhi1].
  destruct (Hnth (length (sort l) / 2) Hhalf) as [Hlo2 Hhi2].
  unfold np_median. rewrite El at 1.
  remember (nth (length (sort l) / 2 - 1) (sort l) 0%Q) as m1.
  remember (nth (length (sort l) / 2) (sort l) 0%Q) as m2.
  destruct (Nat.even (length (sort l))); intros [= <-]; [|done].
  split.
  - apply Qle_shift_div_l; [reflexivity|]. lra.
  - apply Qle_shift_div_r; [reflexivity|]. lra.
Qed.

Lemma Qdiv_le_compat_pos (a b : Q) (d : Z) :
  (0 < d)%Z -> (a <= b)%Q -> (a / inject_Z d <= b / inject_Z d)%Q.
Proof.
  intros Hd Hab. unfold Qdiv. apply Qmult_le_compat_r; [done|].
  apply Qinv_le_0_compat. change 0%Q with (inject_Z 0).
  rewrite <- Zle_Qle. lia.
Qed.

Lemma sign_normalised_neg (r : Z) :
  r <> 0%Z -> (Spec.sign_normalised r < 0)%Z.
Proof.
  intros Hr. unfold Spec.sign_normalised.
  destruct (Z.ltb_spec 0 r); lia.
Qed.

Section Estimator.

Variable freqz_db : list Q -> Z -> list Q.
Variable group_delay : list Q -> Z -> list Q.

(** A finite estimate is the median of some entries of the group-delay
    curve, over the sampling rate. *)
Lemma median_group_delay_fin y sr n_fft rolloff_value (q lo hi : Q) :
  (0 < sr)%Z ->
  (forall x, In x (group_delay y n_fft) -> (lo <= x <= hi)%Q) ->
  median_group_delay freqz_db group_delay y sr n_fft rolloff_value
    = Returns (Fin q) ->
  (lo / inject_Z sr <= q <= hi / inject_Z sr)%Q.
Proof.
  intros Hsr Hgd. unfold median_group_delay.
  destruct (py_max _) as [peak|e]; [|done].
  unfold bool_index. destruct (Nat.eqb _ _); [|done].
  match goal with |- context [np_median ?sel] =>
    pose proof (np_median_bounds sel lo hi) as Hmed;
    destruct (np_median sel) as [m|positive|] end; simpl;
    [|by destruct (sr <? 0)%Z|done].
  destruct (Z.eqb_spec sr 0); [lia|]. intros [= <-].
  destruct (Hmed m) as [Hlo Hhi]; [|done|].
  { intros x Hx. by eapply Hgd, select_In. }
  split; by apply Qdiv_le_compat_pos.
Qed.

(** With a rolloff value other than zero the peak bin is in the passband,
    so the estimate is a number. *)
Lemma median_group_delay_nonzero_rolloff y sr n_fft rolloff_value :
  let dB := freqz_db y n_fft in
  let gd := group_delay y n_fft in
  length gd = length dB -> dB <> [] -> sr <> 0%Z -> rolloff_value <> 0%Z ->
  exists q,
    median_group_delay freqz_db group_delay y sr n_fft rolloff_value
      = Returns (Fin q).
Proof.
  intros dB gd Hlen Hne Hsr Hr.
  rewrite median_group_delay_passband by done. fold dB. fold gd.
  unfold Spec.passband_median.
  pose proof (peak_bin_qualifies dB (Spec.sign_normalised rolloff_value)
                Hne (sign_normalised_neg _ Hr)) as Hbins.
  destruct (np_median_fin
              (map (fun k => nth k gd 0%Q)
                 (Spec.passband_bins dB (Spec.sign_normalised rolloff_value))))
    as [q ->].
  { by destruct (Spec.passband_bins _ _). }
  simpl. apply Z.eqb_neq in Hsr. rewrite Hsr. by eexists.
Qed.

(** X9.  With one entry per bin in both curves, a non-empty curve and a
    sampling rate other than zero, the estimate is nan exactly when the
    rolloff value is zero; for every other rolloff value, of either sign,
    it is a number. *)
Theorem nan_only_for_zero_rolloff y sr n_fft rolloff_value :
  let dB := freqz_db y n_fft in
  let gd := group_delay y n_fft in
  let estimate :=
    median_group_delay freqz_db group_delay y sr n_fft rolloff_value in
  length gd = length dB -> dB <> [] -> sr <> 0%Z ->
  (estimate = Returns NaN <-> rolloff_value = 0%Z)
  /\ (rolloff_value <> 0%Z -> exists q, estimate = Returns (Fin q)).
Proof.
  intros dB gd estimate Hlen Hne Hsr. split.
  - split.
    + intros Hnan. destruct (decide (rolloff_value = 0%Z)) as [|Hr]; [done|].
      destruct (median_group_delay_nonzero_rolloff y sr n_fft rolloff_value
                  Hlen Hne Hsr Hr) as [q Hq].
      subst estimate. congruence.
    + intros ->. subst estimate.
      rewrite median_group_delay_passband by done. fold dB.
      unfold Spec.passband_median.
      change (Spec.sign_normalised 0) with 0%Z.
      by rewrite zero_rolloff_no_bin.
  - by apply median_group_delay_nonzero_rolloff.
Qed.

(** X11.  For a positive sampling rate, a finite estimate never leaves the
    range of the group-delay curve: if every entry of the curve lies
    between [lo] and [hi] samples, the estimate lies between [lo / sr] and
    [hi / sr] seconds. *)
Theorem estimate_within_curve y sr n_fft rolloff_value (q lo hi : Q) :
  (0 < sr)%Z ->
  (forall x, In x (group_delay y n_fft) -> (lo <= x <= hi)%Q) ->
  median_group_delay freqz_db group_delay y sr n_fft rolloff_value
    = Returns (Fin q) ->
  (lo / inject_Z sr <= q <= hi / inject_Z sr)%Q.
Proof. apply median_group_delay_fin. Qed.

(** X12.  A pure delay is recovered: when the group-delay curve has the
    same value [c] (in samples) in every bin, the curves are non-empty
    with one entry per bin, the rolloff value is not zero and the sampling
    rate is positive, the estimate is [c / sr]. *)
Theorem constant_group_delay y sr n_fft rolloff_value (c : Q) :
  let dB := freqz_db y n_fft in
  let gd := group_delay y n_fft in
  length gd = length dB -> dB <> [] ->
  (0 < sr)%Z -> rolloff_value <> 0%Z ->
  (forall x, In x gd -> (x == c)%Q) ->
  exists q,
    median_group_delay freqz_db group_delay y sr n_fft rolloff_value
      = Returns (Fin q)
    /\ (q == c / inject_Z sr)%Q.
Proof.
  intros dB gd Hlen Hne Hsr Hr Hconst.
  destruct (median_group_delay_nonzero_rolloff y sr n_fft rolloff_value
              Hlen Hne ltac:(lia) Hr) as [q Hq].
  exists q. split; [done|].
  destruct (median_group_delay_fin y sr n_fft rolloff_value q c c Hsr)
    as [Hlo Hhi]; [|done|by apply Qle_antisym].
  intros x Hx. rewrite (Hconst x Hx). split; apply Qle_refl.
Qed.

End Estimator.

(** *** Concrete runs *)

Import Examples ImpulseExample.

Lemma nan_only_for_zero_rolloff_witness :
  (median_group_delay peaked_db signal_gd [5; 4; 3; 2; 1]%Q 2 5 0
     = Returns NaN <-> 0%Z = 0%Z)
  /\ exists q,
       median_group_delay peaked_db signal_gd [5; 4; 3; 2; 1]%Q 2 5 (-24)
         = Returns (Fin q).
Proof.
  split.
  - apply (nan_only_for_zero_rolloff peaked_db signal_gd
             [5; 4; 3; 2; 1]%Q 2 5 0); [reflexivity|done|lia].
  - apply (nan_only_for_zero_rolloff peaked_db signal_gd
             [5; 4; 3; 2; 1]%Q 2 5 (-24)); [reflexivity|done|lia|lia].
Defined.

Lemma estimate_within_curve_witness :
  (1 / inject_Z 2 <= 3 # 2 <= 5 / inject_Z 2)%Q.
Proof.
  apply (estimate_within_curve peaked_db signal_gd
           [5; 4; 3; 2; 1]%Q 2 5 (-24) (3 # 2) 1 5).
  - lia.
  - intros x Hx. simpl in Hx.
    repeat (destruct Hx as [<-|Hx]; [by vm_compute|]). done.
  - by vm_compute.
Defined.

Lemma constant_group_delay_witness :
  exists q,
    median_group_delay impulse_db (impulse_gd 441) [0; 0; 1]%Q 44100 8 (-24)
      = Returns (Fin q)
    /\ (q == 441 / inject_Z 44100)%Q.
Proof.
  apply (constant_group_delay impulse_db (impulse_gd 441)
           [0; 0; 1]%Q 44100 8 (-24) 441).
  - reflexivity.
  - done.
  - lia.
  - lia.
  - intros x Hx. simpl in Hx.
    repeat (destruct Hx as [<-|Hx]; [reflexivity|]). done.
Defined.

End EstimatorMore.

(** ** The state generator and the audio hook, as a whole *)

Module PipelineMore.
Import IR Yield PipelineFacts.

Section Pipeline.

Variable freqz_db : list Q -> Z -> list Q.
Variable group_delay : list Q -> Z -> list Q.
Variable load : string -> Z -> outcome (list Q * Z).
Variable fftconvolve_same : list Q -> list Q -> list Q.

Hypothesis same_length :
  forall in1 in2, length (fftconvolve_same in1 in2) = length in1.

(** A run of sources that all load and estimate is yielded in full before
    the rest is looked at. *)
Lemma states_from_app_ok (pre rest : list string) (sr n_fft rolloff_value : Z) :
  (forall f, f ∈ pre -> exists y_ir sr_ir d,
     load f sr = Returns (y_ir, sr_ir)
     /\ median_group_delay freqz_db group_delay y_ir sr_ir n_fft
          rolloff_value = Returns d) ->
  exists yielded,
    Forall2 (state_of freqz_db group_delay load sr n_fft rolloff_value)
      pre yielded
    /\ states_from freqz_db group_delay load (pre ++ rest) sr n_fft
         rolloff_value
       = let '(io, later, out) :=
           states_from freqz_db group_delay load rest sr n_fft
             rolloff_value in
         (((fun f => Load f sr) <$> pre) ++ io, yielded ++ later, out).
Proof.
  induction pre as [|f pre IH]; intros Hok.
  - exists []. split; [constructor|]. simpl.
    by destruct (states_from _ _ _ rest _ _ _) as [[io later] out].
  - destruct (Hok f ltac:(by left)) as (y_ir & sr_ir & d & Hload & Hest).
    destruct IH as (yielded & Hall & Heq).
    { intros f' Hf'. apply Hok. by right. }
    exists (mkState f d :: yielded). split.
    + constructor; [|done]. split; [done|]. by exists y_ir, sr_ir.
    + simpl. rewrite Hload, Hest, Heq.
      by destruct (states_from _ _ _ rest _ _ _) as [[io later] out].
Qed.

(** X13.  When every configured source loads and its estimate returns, the
    generator yields exactly one state per source, in the order of the
    list, each carrying its source's name and the estimate computed from
    what was loaded for it; it loads each source exactly once, in that
    order and at the sampling rate of the audio, and ends normally. *)
Theorem states_one_per_source (self : IRConvolution) (jam : AudioContext) :
  let sr := audio_sr jam in
  (forall f, f ∈ ir_files self -> exists y_ir sr_ir d,
     load f sr = Returns (y_ir, sr_ir)
     /\ median_group_delay freqz_db group_delay y_ir sr_ir (n_fft self)
          (rolloff_value self) = Returns d) ->
  exists yielded,
    states freqz_db group_delay load self jam
      = ((fun f => Load f sr) <$> ir_files self, yielded, Returns tt)
    /\ Forall2
         (state_of freqz_db group_delay load sr (n_fft self)
            (rolloff_value self))
         (ir_files self) yielded.
Proof.
  intros sr Hok.
  destruct (states_from_app_ok (ir_files self) [] sr (n_fft self)
              (rolloff_value self) Hok) as (yielded & Hall & Heq).
  exists yielded. split; [|done].
  unfold states. fold sr. rewrite app_nil_r in Heq. rewrite Heq. simpl.
  by rewrite !app_nil_r.
Qed.

(** X14.  The first source that fails to load, or whose estimate raises,
    ends the iteration with that error: the states of the sources before
    it have been yielded, it is the last source loaded, and no later
    source is loaded at all. *)
Theorem states_stop_at_first_failure (self : IRConvolution)
    (jam : AudioContext) (pre post : list string) (f : string) (e : exn) :
  let sr := audio_sr jam in
  ir_files self = pre ++ f :: post ->
  (forall f', f' ∈ pre -> exists y_ir sr_ir d,
     load f' sr = Returns (y_ir, sr_ir)
     /\ median_group_delay freqz_db group_delay y_ir sr_ir (n_fft self)
          (rolloff_value self) = Returns d) ->
  (load f sr = Raises e
   \/ exists y_ir sr_ir,
        load f sr = Returns (y_ir, sr_ir)
        /\ median_group_delay freqz_db group_delay y_ir sr_ir (n_fft self)
             (rolloff_value self) = Raises e) ->
  exists yielded,
    states freqz_db group_delay load self jam
      = ((fun f' => Load f' sr) <$> (pre ++ [f]), yielded, Raises e)
    /\ Forall2
         (state_of freqz_db group_delay load sr (n_fft self)
            (rolloff_value self))
         pre yielded.
Proof.
  intros sr Hfiles Hok Hfail.
  destruct (states_from_app_ok pre (f :: post) sr (n_fft self)
              (rolloff_value self) Hok) as (yielded & Hall & Heq).
  exists yielded. split; [|done].
  unfold states. fold sr. rewrite Hfiles, Heq. simpl.
  rewrite fmap_app. simpl.
  destruct Hfail as [->|(y_ir & sr_ir & -> & ->)]; by rewrite app_nil_r.
Qed.

(** X17.  Whatever the loader and the estimator do, the generator loads
    the sources in the order of the list and stops at the first failure:
    the loads are those of a prefix of the list, the yielded states carry
    the names of a prefix of the list, and either the iteration ends
    normally with every source loaded and yielded, or it raises with
    exactly one more source loaded than yielded. *)
Theorem states_follow_the_list (self : IRConvolution) (jam : AudioContext) :
  let sr := audio_sr jam in
  let files := ir_files self in
  exists io yielded out,
    states freqz_db group_delay load self jam = (io, yielded, out)
    /\ io = (fun f => Load f sr) <$> take (length io) files
    /\ filename <$> yielded = take (length yielded) files
    /\ ((out = Returns tt /\ length io = length files
         /\ length yielded = length files)
        \/ (exists e, out = Raises e /\ length io = S (length yielded)
                      /\ length io <= length files)).
Proof.
  intros sr files. unfold states. fold sr. fold files.
  generalize (n_fft self) (rolloff_value self). intros n r.
  induction files as [|f files IH]; simpl.
  { eexists _, _, _. split; [done|]. split_and!; [done..|]. by left. }
  destruct (load f sr) as [[y_ir sr_ir]|e] eqn:Hload.
  - destruct (median_group_delay _ _ y_ir sr_ir n r) as [d|e] eqn:Hest.
    + destruct IH as (io & yielded & out & -> & Hio & Hnames & Hout).
      eexists _, _, _. split; [done|]. simpl.
      split_and!; [by f_equal|by f_equal|].
      destruct Hout as [(-> & -> & ->)|(e & -> & -> & ?)]; [by left|].
      right. exists e. split_and!; [done..|lia].
    + eexists _, _, _. split; [done|]. simpl.
      split_and!; [done..|]. right. exists e. split_and!; [done..|lia].
  - eexists _, _, _. split; [done|]. simpl.
    split_and!; [done..|]. right. exists e. split_and!; [done..|lia].
Qed.

(** X18.  A transformer built from a single path is the transformer built
    from the one-element list of that path, and its generator performs
    exactly one load, of that path, yielding one state if the load and the
    estimate succeed and none otherwise. *)
Theorem single_path_loads_once (s : string) (n r : Z) (jam : AudioContext)
    (self : IRConvolution) :
  IRConvolution_init (OnePath s) n r = Returns self ->
  IRConvolution_init (Paths [s]) n r = Returns self
  /\ exists yielded out,
       states freqz_db group_delay load self jam
         = ([Load s (audio_sr jam)], yielded, out)
       /\ ((out = Returns tt /\ filename <$> yielded = [s])
           \/ (exists e, out = Raises e /\ yielded = [])).
Proof.
  intros [= <-]. split; [done|]. unfold states; simpl.
  destruct (load s (audio_sr jam)) as [[y_ir sr_ir]|e].
  - destruct (median_group_delay _ _ y_ir sr_ir n r) as [d|e].
    + eexists _, _. split; [done|]. by left.
    + eexists _, _. split; [done|]. right. by exists e.
  - eexists _, _. split; [done|]. right. by exists e.
Qed.


End Pipeline.

(** *** Concrete runs *)

Import Examples ImpulseExample.

Lemma states_one_per_source_witness :
  exists yielded,
    states impulse_db (impulse_gd 2) one_file
      (mkIRConvolution ["ir.wav"; "ir.wav"]%string 8 (-24) [])
      (mkAudio [] 44100)
    = ([Load "ir.wav" 44100; Load "ir.wav" 44100], yielded, Returns tt)
    /\ length yielded = 2.
Proof.
  destruct (states_one_per_source impulse_db (impulse_gd 2) one_file
              (mkIRConvolution ["ir.wav"; "ir.wav"]%string 8 (-24) [])
              (mkAudio [] 44100))
    as (yielded & Heq & Hall).
  - intros f Hf. simpl in Hf.
    assert (f = "ir.wav"%string) as ->.
    { apply elem_of_cons in Hf as [->|Hf]; [done|].
      apply elem_of_cons in Hf as [->|Hf]; [done|].
      by apply elem_of_nil in Hf. }
    eexists _, _, _. split; [reflexivity|]. by vm_compute.
  - exists yielded. split; [exact Heq|].
    apply Forall2_length in Hall. by rewrite <- Hall.
Defined.

Lemma states_stop_at_first_failure_witness :
  exists yielded,
    states impulse_db (impulse_gd 2) one_file
      (mkIRConvolution ["ir.wav"; "missing.wav"; "ir.wav"]%string 8 (-24) [])
      (mkAudio [] 44100)
    = ([Load "ir.wav" 44100; Load "missing.wav" 44100], yielded,
       Raises LoadError)
    /\ length yielded = 1.
Proof.
  destruct (states_stop_at_first_failure impulse_db (impulse_gd 2) one_file
              (mkIRConvolution ["ir.wav"; "missing.wav"; "ir.wav"]%string
                 8 (-24) [])
              (mkAudio [] 44100) ["ir.wav"%string] ["ir.wav"%string]
              "missing.wav"%string LoadError)
    as (yielded & Heq & Hall).
  - reflexivity.
  - intros f ->%list_elem_of_singleton.
    eexists _, _, _. split; [reflexivity|]. by vm_compute.
  - left. reflexivity.
  - exists yielded. split; [exact Heq|].
    apply Forall2_length in Hall. by rewrite <- Hall.
Defined.

Lemma single_path_loads_once_witness :
  exists yielded out,
    states impulse_db (impulse_gd 2) one_file
      (mkIRConvolution ["ir.wav"%string] 8 (-24)
         [(".*", "deform_times")]%string)
      (mkAudio [] 44100)
    = ([Load "ir.wav" 44100], yielded, out).
Proof.
  destruct (single_path_loads_once impulse_db (impulse_gd 2) one_file
              "ir.wav"%string 8 (-24) (mkAudio [] 44100)
              (mkIRConvolution ["ir.wav"%string] 8 (-24)
                 [(".*", "deform_times")]%string))
    as (_ & yielded & out & Heq & _).
  - reflexivity.
  - exists yielded, out. exact Heq.
Defined.


End PipelineMore.
